(** * The unconfirmed-transaction pool of [src/visor/unconfirmed.go]

    A shallow embedding of the pool of pending transactions and of its
    operations, followed by the properties its specification states.

    The Go package [coin] (transactions, the blockchain, the unspent
    pool) is an external collaborator of this file: it is taken as an
    interface, the class [Coin] below.  The pool is a Go struct reached
    through a pointer receiver, so every method is a computation in a
    small state monad over the pool.  [util.Now()] is the reading of the
    wall clock; an operation that reads it takes the reading as [now]. *)

From Stdlib Require Import ZArith NArith String.
From Stdlib.Strings Require Import Byte.
From stdpp Require Import base option list gmap fin_maps sorting.

Local Open Scope Z_scope.

(** ** Go base types *)

(** [coin.SHA256] is a 32-byte array, read as a 256-bit number. *)
Abbreviation SHA256 := N (only parsing).

(** [time.Time] as the number of nanoseconds since Go's zero time, and
    [time.Duration] (an int64 count of nanoseconds). *)
Abbreviation Time := Z (only parsing).
Abbreviation Duration := Z (only parsing).

Definition minDuration : Duration := - 2 ^ 63.
Definition maxDuration : Duration := 2 ^ 63 - 1.

(** [t.Sub(u)]: the difference, saturated to the range of [Duration]. *)
Definition Time_Sub (t u : Time) : Duration :=
  let d := t - u in
  if d <? minDuration then minDuration
  else if maxDuration <? d then maxDuration
  else d.

(** [util.ZeroTime()] *)
Definition ZeroTime : Time := 0.

(** ** The interface of package [coin] *)

Class Coin : Type := {
  Transaction : Type;
  Address : Type;
  Address_eq_dec :: EqDecision Address;
  Address_countable :: Countable Address;
  UxOut : Type;
  BlockHeader : Type;
  UnspentPool : Type;
  Blockchain : Type;
  (** the error values the ledger hands back *)
  coin_error : Type;
  (** [t.Hash()], [t.Size()] (an int), [t.OutputHours()] (a uint64), [t.In] *)
  Transaction_Hash : Transaction → SHA256;
  Transaction_Size : Transaction → Z;
  Transaction_OutputHours : Transaction → N;
  Transaction_In : Transaction → list SHA256;
  (** [ux.Body.Address] *)
  UxOut_Address : UxOut → Address;
  (** [coin.CreateUnspents(head, t)] *)
  CreateUnspents : BlockHeader → Transaction → list UxOut;
  (** [bc.TransactionFee(t)] returns [(fee, err)] *)
  Blockchain_TransactionFee : Blockchain → Transaction → N * option coin_error;
  (** [bc.VerifyTransaction(t)] *)
  Blockchain_VerifyTransaction : Blockchain → Transaction → option coin_error;
  (** [bc.Head().Head] and [bc.Unspent] *)
  Blockchain_Head : Blockchain → BlockHeader;
  Blockchain_Unspent : Blockchain → UnspentPool;
  (** [pool.Get(h)] returns [(ux, ok)] *)
  UnspentPool_Get : UnspentPool → SHA256 → option UxOut;
}.

Section Visor.
Context `{Coin}.

Abbreviation UxArray := (list UxOut) (only parsing).
Abbreviation Transactions := (list Transaction) (only parsing).
Abbreviation AddressUxOuts := (gmap Address (list UxOut)) (only parsing).
Abbreviation TxnUnspents := (gmap SHA256 (list UxOut)) (only parsing).

(** A Go [error]: [None] is [nil].  An error made here by [errors.New]
    is a fresh value, distinct from whatever the ledger returns. *)
Inductive error : Type :=
  | errors_New (text : string)
  | ledger_error (e : coin_error).

(** ** VerifyTransaction *)

Definition VerifyTransaction (bc : Blockchain) (t : Transaction)
    (maxSize : Z) (burnFactor : N) : option error :=
  if maxSize <? Transaction_Size t then
    Some (errors_New "Transaction too large")
  else
    let '(fee, err) := Blockchain_TransactionFee bc t in
    match err with
    | Some e => Some (ledger_error e)
    | None =>
        if negb (burnFactor =? 0)%N
           && (fee <? Transaction_OutputHours t / burnFactor)%N
        then Some (errors_New "Transaction fee minimum not met")
        else None
    end.

(** ** TxnUnspents *)

(** [range] over a Go map visits every entry once, in an order that is
    not specified.  A loop over a map is written over the list of the
    entries it visits; [map_to_list] is one such list. *)
Fixpoint AllForAddress_uxa (a : Address) (uxa : UxArray) (uxo : UxArray)
    : UxArray :=
  match uxa with
  | [] => uxo
  | ux :: rest =>
      if decide (UxOut_Address ux = a)
      then AllForAddress_uxa a rest (uxo ++ [ux])
      else AllForAddress_uxa a rest uxo
  end.

Definition AllForAddress_in (visit : list (SHA256 * UxArray))
    (a : Address) : UxArray :=
  foldl (λ uxo kv, AllForAddress_uxa a kv.2 uxo) [] visit.

Definition AllForAddress (self : TxnUnspents) (a : Address) : UxArray :=
  AllForAddress_in (map_to_list self) a.

(** ** UnconfirmedTxn *)

Record UnconfirmedTxn : Type := {
  Txn : Transaction;
  Received : Time;
  Checked : Time;
  Announced : Time;
}.

Definition Hash (self : UnconfirmedTxn) : SHA256 :=
  Transaction_Hash (Txn self).

(** Field assignments [tx.Announced = t] and the like. *)
Definition set_Announced (t : Time) (tx : UnconfirmedTxn) : UnconfirmedTxn :=
  {| Txn := Txn tx; Received := Received tx; Checked := Checked tx;
     Announced := t |}.
Definition set_Received (t : Time) (tx : UnconfirmedTxn) : UnconfirmedTxn :=
  {| Txn := Txn tx; Received := t; Checked := Checked tx;
     Announced := Announced tx |}.
Definition set_Checked (t : Time) (tx : UnconfirmedTxn) : UnconfirmedTxn :=
  {| Txn := Txn tx; Received := Received tx; Checked := t;
     Announced := Announced tx |}.

(** ** UnconfirmedTxnPool *)

Record UnconfirmedTxnPool : Type := {
  Txns : gmap SHA256 UnconfirmedTxn;
  Unspent : gmap SHA256 (list UxOut);
}.

Definition NewUnconfirmedTxnPool : UnconfirmedTxnPool :=
  {| Txns := ∅; Unspent := ∅ |}.

(** *** The monad of the methods of the pool *)

Definition Pool (A : Type) : Type :=
  UnconfirmedTxnPool → A * UnconfirmedTxnPool.

#[export] Instance Pool_ret : MRet Pool := λ A x self, (x, self).
#[export] Instance Pool_bind : MBind Pool :=
  λ A B f c self, let '(x, self') := c self in f x self'.

(** [self.Txns], [self.Txns[h] = tx], [delete(self.Txns, h)], and the
    same for [self.Unspent]. *)
Definition get_Txns : Pool (gmap SHA256 UnconfirmedTxn) :=
  λ self, (Txns self, self).
Definition store_Txns (h : SHA256) (tx : UnconfirmedTxn) : Pool unit :=
  λ self, (tt, {| Txns := <[h := tx]> (Txns self); Unspent := Unspent self |}).
Definition delete_Txns (h : SHA256) : Pool unit :=
  λ self, (tt, {| Txns := delete h (Txns self); Unspent := Unspent self |}).
Definition store_Unspent (h : SHA256) (uxa : UxArray) : Pool unit :=
  λ self, (tt, {| Txns := Txns self; Unspent := <[h := uxa]> (Unspent self) |}).
Definition delete_Unspent (h : SHA256) : Pool unit :=
  λ self, (tt, {| Txns := Txns self; Unspent := delete h (Unspent self) |}).

(** The value and the pool a method leaves. *)
Definition result {A} (c : Pool A) (self : UnconfirmedTxnPool) : A :=
  (c self).1.
Definition after {A} (c : Pool A) (self : UnconfirmedTxnPool)
    : UnconfirmedTxnPool :=
  (c self).2.

(** *** SetAnnounced *)

Definition SetAnnounced (h : SHA256) (t : Time) : Pool unit :=
  txns ← get_Txns;
  match txns !! h with
  | Some tx => store_Txns h (set_Announced t tx)
  | None => mret tt
  end.

(** *** createUnconfirmedTxn and RecordTxn *)

Definition createUnconfirmedTxn (bcUnsp : UnspentPool) (t : Transaction)
    (addrs : gmap Address byte) (now : Time) : Pool UnconfirmedTxn :=
  mret {| Txn := t; Received := now; Checked := now; Announced := ZeroTime |}.

Definition RecordTxn (bc : Blockchain) (t : Transaction)
    (addrs : gmap Address byte) (maxSize : Z) (burnFactor : N)
    (now : Time) : Pool (option error * bool) :=
  match VerifyTransaction bc t maxSize burnFactor with
  | Some err => mret (Some err, false)
  | None =>
      match Blockchain_VerifyTransaction bc t with
      | Some err => mret (Some (ledger_error err), false)
      | None =>
          let h := Transaction_Hash t in
          txns ← get_Txns;
          match txns !! h with
          | Some ut =>
              store_Txns h (set_Checked now (set_Received now ut));;
              mret (None, true)
          | None =>
              ut ← createUnconfirmedTxn (Blockchain_Unspent bc) t addrs now;
              store_Txns h ut;;
              store_Unspent h (CreateUnspents (Blockchain_Head bc) t);;
              mret (None, false)
          end
      end
  end.

(** *** RawTxns *)

Definition RawTxns_in (visit : list (SHA256 * UnconfirmedTxn))
    : Pool Transactions :=
  mret ((λ kv, Txn kv.2) <$> visit).

Definition RawTxns : Pool Transactions :=
  txns ← get_Txns; RawTxns_in (map_to_list txns).

(** *** removeTxn, removeTxns, RemoveTransactions *)

Definition removeTxn (bc : Blockchain) (txHash : SHA256) : Pool unit :=
  delete_Txns txHash;; delete_Unspent txHash.

Fixpoint removeTxns (bc : Blockchain) (hashes : list SHA256) : Pool unit :=
  match hashes with
  | [] => mret tt
  | h :: rest => delete_Txns h;; delete_Unspent h;; removeTxns bc rest
  end.

Definition RemoveTransactions (bc : Blockchain) (txns : Transactions)
    : Pool unit :=
  let toRemove := Transaction_Hash <$> txns in
  removeTxns bc toRemove.

(** *** Refresh *)

(** The body of the loop, for the key [k] the loop is at. *)
Definition Refresh_visit (bc : Blockchain) (checkPeriod maxAge : Duration)
    (now : Time) (k : SHA256) (toRemove : list SHA256)
    : Pool (list SHA256) :=
  txns ← get_Txns;
  match txns !! k with
  | None => mret toRemove
  | Some t =>
      if maxAge <=? Time_Sub now (Received t) then
        mret (toRemove ++ [k])
      else if checkPeriod <=? Time_Sub now (Checked t) then
        match Blockchain_VerifyTransaction bc (Txn t) with
        | None => store_Txns k (set_Checked now t);; mret toRemove
        | Some _ => mret (toRemove ++ [k])
        end
      else mret toRemove
  end.

Fixpoint Refresh_scan (bc : Blockchain) (checkPeriod maxAge : Duration)
    (now : Time) (visit : list SHA256) (toRemove : list SHA256)
    : Pool (list SHA256) :=
  match visit with
  | [] => mret toRemove
  | k :: rest =>
      toRemove' ← Refresh_visit bc checkPeriod maxAge now k toRemove;
      Refresh_scan bc checkPeriod maxAge now rest toRemove'
  end.

Definition Refresh_in (visit : list SHA256) (bc : Blockchain)
    (checkPeriod maxAge : Duration) (now : Time) : Pool unit :=
  toRemove ← Refresh_scan bc checkPeriod maxAge now visit [];
  removeTxns bc toRemove.

Definition Refresh (bc : Blockchain) (checkPeriod maxAge : Duration)
    (now : Time) : Pool unit :=
  txns ← get_Txns;
  Refresh_in (map_to_list txns).*1 bc checkPeriod maxAge now.

(** *** FilterKnown and GetKnown *)

Fixpoint FilterKnown_loop (txns : list SHA256) (unknown : list SHA256)
    : Pool (list SHA256) :=
  match txns with
  | [] => mret unknown
  | h :: rest =>
      table ← get_Txns;
      match table !! h with
      | None => FilterKnown_loop rest (unknown ++ [h])
      | Some _ => FilterKnown_loop rest unknown
      end
  end.

Definition FilterKnown (txns : list SHA256) : Pool (list SHA256) :=
  FilterKnown_loop txns [].

Fixpoint GetKnown_loop (txns : list SHA256) (known : Transactions)
    : Pool Transactions :=
  match txns with
  | [] => mret known
  | h :: rest =>
      table ← get_Txns;
      match table !! h with
      | Some txn => GetKnown_loop rest (known ++ [Txn txn])
      | None => GetKnown_loop rest known
      end
  end.

Definition GetKnown (txns : list SHA256) : Pool Transactions :=
  GetKnown_loop txns [].

(** *** SpendsForAddresses and SpendsForAddress *)

(** [m[k]] on a Go map of slices: the nil slice when [k] is absent. *)
Definition index (auxs : AddressUxOuts) (a : Address) : UxArray :=
  default [] (auxs !! a).

(** The inner loop, over the inputs of one pending transaction. *)
Fixpoint Spends_inputs (bcUnspent : UnspentPool) (a : gmap Address byte)
    (ins : list SHA256) (auxs : AddressUxOuts) : AddressUxOuts :=
  match ins with
  | [] => auxs
  | h :: rest =>
      match UnspentPool_Get bcUnspent h with
      | Some ux =>
          match a !! UxOut_Address ux with
          | Some _ =>
              Spends_inputs bcUnspent a rest
                (<[UxOut_Address ux := index auxs (UxOut_Address ux) ++ [ux]]>
                   auxs)
          | None => Spends_inputs bcUnspent a rest auxs
          end
      | None => Spends_inputs bcUnspent a rest auxs
      end
  end.

Definition SpendsForAddresses_in (visit : list (SHA256 * UnconfirmedTxn))
    (bcUnspent : UnspentPool) (a : gmap Address byte) : Pool AddressUxOuts :=
  mret (foldl (λ auxs kv,
                 Spends_inputs bcUnspent a (Transaction_In (Txn kv.2)) auxs)
              ∅ visit).

Definition SpendsForAddresses (bcUnspent : UnspentPool)
    (a : gmap Address byte) : Pool AddressUxOuts :=
  txns ← get_Txns;
  SpendsForAddresses_in (map_to_list txns) bcUnspent a.

Definition SpendsForAddress_in (visit : list (SHA256 * UnconfirmedTxn))
    (bcUnspent : UnspentPool) (a : Address) : Pool UxArray :=
  let ma : gmap Address byte := {[ a := x01 ]} in
  auxs ← SpendsForAddresses_in visit bcUnspent ma;
  mret (index auxs a).

Definition SpendsForAddress (bcUnspent : UnspentPool) (a : Address)
    : Pool UxArray :=
  let ma : gmap Address byte := {[ a := x01 ]} in
  auxs ← SpendsForAddresses bcUnspent ma;
  mret (index auxs a).

(** ** Histories of a pool *)

(** The operations a caller may invoke on the pool. *)
Inductive Op : Type :=
  | OpRecordTxn (bc : Blockchain) (t : Transaction)
      (addrs : gmap Address byte) (maxSize : Z) (burnFactor : N)
  | OpSetAnnounced (h : SHA256) (t : Time)
  | OpRemoveTransactions (bc : Blockchain) (txns : Transactions)
  | OpRefresh (bc : Blockchain) (checkPeriod maxAge : Duration)
  | OpRawTxns
  | OpFilterKnown (txns : list SHA256)
  | OpGetKnown (txns : list SHA256)
  | OpSpendsForAddresses (bcUnspent : UnspentPool) (a : gmap Address byte)
  | OpSpendsForAddress (bcUnspent : UnspentPool) (a : Address).

(** One operation, invoked when the clock reads [now]. *)
Definition exec (now : Time) (op : Op) : Pool unit :=
  match op with
  | OpRecordTxn bc t addrs maxSize burnFactor =>
      RecordTxn bc t addrs maxSize burnFactor now;; mret tt
  | OpSetAnnounced h t => SetAnnounced h t
  | OpRemoveTransactions bc txns => RemoveTransactions bc txns
  | OpRefresh bc checkPeriod maxAge => Refresh bc checkPeriod maxAge now
  | OpRawTxns => RawTxns;; mret tt
  | OpFilterKnown txns => FilterKnown txns;; mret tt
  | OpGetKnown txns => GetKnown txns;; mret tt
  | OpSpendsForAddresses bcUnspent a =>
      SpendsForAddresses bcUnspent a;; mret tt
  | OpSpendsForAddress bcUnspent a => SpendsForAddress bcUnspent a;; mret tt
  end.

(** A history is a list of operations, each with the clock reading at
    which it runs; [trace] lists the pool before the first operation and
    after each one. *)
Fixpoint run (history : list (Time * Op)) (self : UnconfirmedTxnPool)
    : UnconfirmedTxnPool :=
  match history with
  | [] => self
  | (now, op) :: rest => run rest (after (exec now op) self)
  end.

Fixpoint trace (history : list (Time * Op)) (self : UnconfirmedTxnPool)
    : list UnconfirmedTxnPool :=
  self ::
  match history with
  | [] => []
  | (now, op) :: rest => trace rest (after (exec now op) self)
  end.

(** The clock never steps back along the history. *)
Fixpoint clock_monotone (readings : list Time) : bool :=
  match readings with
  | [] => true
  | t :: rest =>
      match rest with
      | [] => true
      | t' :: _ => (t <=? t') && clock_monotone rest
      end
  end.

(** ** Notions the properties are stated with *)

(** The table and the index of predicted unspents have the same keys. *)
Definition consistent (self : UnconfirmedTxnPool) : Prop :=
  dom (Txns self) = dom (Unspent self).

(** What one visit of [Refresh] makes of the entry [t]: [None] when the
    entry is put on the removal list. *)
Definition Refresh_outcome (bc : Blockchain) (checkPeriod maxAge : Duration)
    (now : Time) (t : UnconfirmedTxn) : option UnconfirmedTxn :=
  if maxAge <=? Time_Sub now (Received t) then None
  else if checkPeriod <=? Time_Sub now (Checked t) then
    match Blockchain_VerifyTransaction bc (Txn t) with
    | None => Some (set_Checked now t)
    | Some _ => None
    end
  else Some t.

(** The source outputs of the inputs of the visited transactions, as far
    as the unspent pool of the ledger resolves them. *)
Definition pending_spends (bcUnspent : UnspentPool)
    (visit : list (SHA256 * UnconfirmedTxn)) : UxArray :=
  visit ≫= λ kv, omap (UnspentPool_Get bcUnspent) (Transaction_In (Txn kv.2)).

End Visor.

(** ** A small ledger

    An instance of the interface on which the operations can be run:
    transactions carry their hash, size, output hours and inputs; the
    ledger charges a flat fee and rejects the transactions it lists. *)

Module Sample.

Record tx : Type := {
  tx_id : N; tx_size : Z; tx_hours : N; tx_in : list N;
}.

Record ux : Type := { ux_id : N; ux_owner : N }.

Record ledger : Type := {
  ledger_head : N;
  ledger_fee : N;
  ledger_rejects : list N;
  ledger_unspent : list ux;
}.

#[export] Instance coin : Coin := {|
  Transaction := tx;
  Address := N;
  UxOut := ux;
  BlockHeader := N;
  UnspentPool := list ux;
  Blockchain := ledger;
  coin_error := string;
  Transaction_Hash := tx_id;
  Transaction_Size := tx_size;
  Transaction_OutputHours := tx_hours;
  Transaction_In := tx_in;
  UxOut_Address := ux_owner;
  CreateUnspents := λ head t, [ {| ux_id := tx_id t + head; ux_owner := 7 |} ]%N;
  Blockchain_TransactionFee := λ bc t, (ledger_fee bc, None);
  Blockchain_VerifyTransaction := λ bc t,
    if bool_decide (tx_id t ∈ ledger_rejects bc)
    then Some "rejected"%string else None;
  Blockchain_Head := ledger_head;
  Blockchain_Unspent := ledger_unspent;
  UnspentPool_Get := λ pool h, List.find (λ u, (ux_id u =? h)%N) pool;
|}.

Definition bc0 : Blockchain :=
  {| ledger_head := 1; ledger_fee := 5; ledger_rejects := [30%N];
     ledger_unspent := [ {| ux_id := 100; ux_owner := 1 |};
                         {| ux_id := 101; ux_owner := 2 |};
                         {| ux_id := 102; ux_owner := 1 |} ] |}.

Definition t1 : Transaction :=
  {| tx_id := 10; tx_size := 200; tx_hours := 10; tx_in := [100%N; 101%N] |}.
Definition t2 : Transaction :=
  {| tx_id := 20; tx_size := 300; tx_hours := 11; tx_in := [102%N; 999%N] |}.
Definition t3 : Transaction :=
  {| tx_id := 30; tx_size := 100; tx_hours := 0; tx_in := [] |}.

(** Transactions at the limits of the policy [maxSize = 1000],
    [burnFactor = 2] under the fee 5 of [bc0]. *)
Definition t_limit : Transaction :=
  {| tx_id := 1; tx_size := 1000; tx_hours := 11; tx_in := [] |}.
Definition t_large : Transaction :=
  {| tx_id := 2; tx_size := 1001; tx_hours := 11; tx_in := [] |}.
Definition t_cheap : Transaction :=
  {| tx_id := 3; tx_size := 1000; tx_hours := 12; tx_in := [] |}.

(** The pool that holds [t1], recorded at time 1000, and [t2], recorded
    at time 2000. *)
Definition pool12 : UnconfirmedTxnPool :=
  after (RecordTxn bc0 t2 ∅ 1000 2 2000)
    (after (RecordTxn bc0 t1 ∅ 1000 2 1000) NewUnconfirmedTxnPool).

(** The entries of [pool12]. *)
Definition e1 : UnconfirmedTxn :=
  {| Txn := t1; Received := 1000; Checked := 1000; Announced := ZeroTime |}.
Definition e2 : UnconfirmedTxn :=
  {| Txn := t2; Received := 2000; Checked := 2000; Announced := ZeroTime |}.

End Sample.

(** * Properties *)

Section Properties.
Context `{Coin}.

Implicit Types (self : UnconfirmedTxnPool) (h k : SHA256) (now : Time).
Implicit Types (bc : Blockchain) (t : Transaction).

(** Unfolds the monad of the pool down to pairs. *)
Ltac pool_unfold :=
  unfold result, after, mbind, Pool_bind, mret, Pool_ret, get_Txns,
    store_Txns, delete_Txns, store_Unspent, delete_Unspent in *.

Lemma pool_eq self self' :
  Txns self = Txns self' → Unspent self = Unspent self' → self = self'.
Proof. destruct self, self'; simpl; congruence. Qed.

(** *** Time *)

Lemma Time_Sub_range (t u : Time) : minDuration ≤ Time_Sub t u ≤ maxDuration.
Proof.
  unfold Time_Sub, minDuration, maxDuration.
  repeat case_match; lia.
Qed.

Lemma Time_Sub_exact (t u : Time) :
  minDuration ≤ t - u ≤ maxDuration → Time_Sub t u = t - u.
Proof.
  unfold Time_Sub, minDuration, maxDuration.
  intros ?; repeat case_match; lia.
Qed.

(** Against a bound above the least duration, saturation does not show. *)
Lemma Time_Sub_ge (t u : Time) (d : Duration) :
  minDuration < d ≤ maxDuration → (d ≤ Time_Sub t u ↔ d ≤ t - u).
Proof.
  unfold Time_Sub, minDuration, maxDuration.
  intros ?; repeat case_match; lia.
Qed.

(** *** VerifyTransaction *)

(** C4.  The policy check fails with the too-large error exactly when
    the size of the transaction is strictly above [maxSize]; otherwise an
    error of the fee computation of the ledger is returned as it is;
    otherwise the check fails with the fee error exactly when
    [burnFactor] is not zero and [outputHours / burnFactor] is strictly
    above the fee; otherwise it succeeds.  The check is a function of its
    arguments alone: it neither reads nor leaves a pool. *)
Theorem VerifyTransaction_spec bc t (maxSize : Z) (burnFactor : N) :
  let size := Transaction_Size t in
  let hours := Transaction_OutputHours t in
  let fee := (Blockchain_TransactionFee bc t).1 in
  let err := (Blockchain_TransactionFee bc t).2 in
  let verdict := VerifyTransaction bc t maxSize burnFactor in
  (verdict = Some (errors_New "Transaction too large") ↔ maxSize < size)
  ∧ (size ≤ maxSize → ∀ e, err = Some e → verdict = Some (ledger_error e))
  ∧ (size ≤ maxSize → err = None →
       (verdict = Some (errors_New "Transaction fee minimum not met")
        ↔ burnFactor ≠ 0%N ∧ (fee < hours / burnFactor)%N))
  ∧ (size ≤ maxSize → err = None →
       ¬ (burnFactor ≠ 0%N ∧ (fee < hours / burnFactor)%N) →
       verdict = None).
Proof.
  intros size hours fee err verdict.
  subst size hours fee err verdict. unfold VerifyTransaction.
  destruct (Blockchain_TransactionFee bc t) as [fee err]; simpl.
  destruct (Z.ltb_spec maxSize (Transaction_Size t)) as [Hbig|Hfit].
  - repeat split; try lia; done.
  - destruct (N.eqb_spec burnFactor 0) as [Hz|Hnz];
      destruct (N.ltb_spec fee (Transaction_OutputHours t / burnFactor))
        as [Hlow|Hok]; simpl.
    all: repeat split; intros; subst; try done; try lia.
    all: try (destruct err; naive_solver lia).
    all: try (exfalso; naive_solver lia).
Qed.

(** *** RecordTxn, case by case *)

Lemma RecordTxn_policy_failure bc t addrs maxSize burnFactor now self e :
  VerifyTransaction bc t maxSize burnFactor = Some e →
  RecordTxn bc t addrs maxSize burnFactor now self = (Some e, false, self).
Proof. intros He. unfold RecordTxn. by rewrite He. Qed.

Lemma RecordTxn_ledger_failure bc t addrs maxSize burnFactor now self e :
  VerifyTransaction bc t maxSize burnFactor = None →
  Blockchain_VerifyTransaction bc t = Some e →
  RecordTxn bc t addrs maxSize burnFactor now self
  = (Some (ledger_error e), false, self).
Proof. intros Hp He. unfold RecordTxn. by rewrite Hp, He. Qed.

Lemma RecordTxn_known bc t addrs maxSize burnFactor now self ut :
  VerifyTransaction bc t maxSize burnFactor = None →
  Blockchain_VerifyTransaction bc t = None →
  Txns self !! Transaction_Hash t = Some ut →
  RecordTxn bc t addrs maxSize burnFactor now self
  = (None, true,
     {| Txns := <[Transaction_Hash t :=
                    {| Txn := Txn ut; Received := now; Checked := now;
                       Announced := Announced ut |}]> (Txns self);
        Unspent := Unspent self |}).
Proof.
  intros Hp Hl Hut. unfold RecordTxn. rewrite Hp, Hl.
  pool_unfold. by rewrite Hut.
Qed.

Lemma RecordTxn_new bc t addrs maxSize burnFactor now self :
  VerifyTransaction bc t maxSize burnFactor = None →
  Blockchain_VerifyTransaction bc t = None →
  Txns self !! Transaction_Hash t = None →
  RecordTxn bc t addrs maxSize burnFactor now self
  = (None, false,
     {| Txns := <[Transaction_Hash t :=
                    {| Txn := t; Received := now; Checked := now;
                       Announced := ZeroTime |}]> (Txns self);
        Unspent := <[Transaction_Hash t :=
                       CreateUnspents (Blockchain_Head bc) t]>
                     (Unspent self) |}).
Proof.
  intros Hp Hl Hut. unfold RecordTxn. rewrite Hp, Hl.
  unfold createUnconfirmedTxn. pool_unfold. by rewrite Hut.
Qed.

(** The four cases are all there is. *)
Lemma RecordTxn_cases bc t addrs maxSize burnFactor now self :
  (∃ e, RecordTxn bc t addrs maxSize burnFactor now self
        = (Some e, false, self))
  ∨ (∃ ut, Txns self !! Transaction_Hash t = Some ut
       ∧ RecordTxn bc t addrs maxSize burnFactor now self
         = (None, true,
            {| Txns := <[Transaction_Hash t :=
                           {| Txn := Txn ut; Received := now; Checked := now;
                              Announced := Announced ut |}]> (Txns self);
               Unspent := Unspent self |}))
  ∨ (Txns self !! Transaction_Hash t = None
       ∧ RecordTxn bc t addrs maxSize burnFactor now self
         = (None, false,
            {| Txns := <[Transaction_Hash t :=
                           {| Txn := t; Received := now; Checked := now;
                              Announced := ZeroTime |}]> (Txns self);
               Unspent := <[Transaction_Hash t :=
                              CreateUnspents (Blockchain_Head bc) t]>
                            (Unspent self) |})).
Proof.
  destruct (VerifyTransaction bc t maxSize burnFactor) as [e|] eqn:Hp.
  { left. eauto using RecordTxn_policy_failure. }
  destruct (Blockchain_VerifyTransaction bc t) as [e|] eqn:Hl.
  { left. eauto using RecordTxn_ledger_failure. }
  destruct (Txns self !! Transaction_Hash t) as [ut|] eqn:Hut.
  - right; left. eauto using RecordTxn_known.
  - right; right. eauto using RecordTxn_new.
Qed.

(** C2.  When [RecordTxn] fails the policy check or the validation of
    the ledger, it returns that error, and the pool after the call is the
    pool before it: whenever the returned error is not nil, nothing of
    the pool has changed. *)
Theorem RecordTxn_failure_inert bc t addrs maxSize burnFactor now self :
  (∀ e, VerifyTransaction bc t maxSize burnFactor = Some e →
        RecordTxn bc t addrs maxSize burnFactor now self
        = (Some e, false, self))
  ∧ (∀ e, VerifyTransaction bc t maxSize burnFactor = None →
          Blockchain_VerifyTransaction bc t = Some e →
          RecordTxn bc t addrs maxSize burnFactor now self
          = (Some (ledger_error e), false, self))
  ∧ (∀ err existed self',
        RecordTxn bc t addrs maxSize burnFactor now self
        = (Some err, existed, self') →
        self' = self ∧ existed = false
        ∧ size (Txns self') = size (Txns self)
        ∧ Txns self' = Txns self ∧ Unspent self' = Unspent self).
Proof.
  split; [|split].
  - intros e. apply RecordTxn_policy_failure.
  - intros e. apply RecordTxn_ledger_failure.
  - intros err existed self' Hrun.
    destruct (RecordTxn_cases bc t addrs maxSize burnFactor now self)
      as [[e He]|[(ut & _ & He)|[_ He]]];
      rewrite He in Hrun; by simplify_eq.
Qed.

(** C10.  Two calls of [RecordTxn] that differ in [addrs] alone return
    the same error and the same flag and leave the same pool. *)
Theorem RecordTxn_addrs_irrelevant bc t (addrs1 addrs2 : gmap Address byte)
    maxSize burnFactor now self :
  RecordTxn bc t addrs1 maxSize burnFactor now self
  = RecordTxn bc t addrs2 maxSize burnFactor now self.
Proof. reflexivity. Qed.

(** *** FilterKnown *)

Lemma FilterKnown_loop_eq (txns unknown : list SHA256) self :
  FilterKnown_loop txns unknown self
  = (unknown ++ filter (λ h, Txns self !! h = None) txns, self).
Proof.
  revert unknown. induction txns as [|h rest IH]; intros unknown; simpl.
  - by rewrite app_nil_r.
  - pool_unfold. destruct (Txns self !! h) as [ut|] eqn:Hh.
    + rewrite IH, filter_cons_False; [done|]. by rewrite Hh.
    + rewrite IH, filter_cons_True by done. by rewrite <- app_assoc.
Qed.

(** C8.  [FilterKnown] returns the hashes of its argument that are not
    keys of the table, in the order of the argument and as many times as
    they occur there, and leaves the pool as it was. *)
Theorem FilterKnown_spec (txns : list SHA256) self :
  result (FilterKnown txns) self = filter (λ h, Txns self !! h = None) txns
  ∧ result (FilterKnown txns) self `sublist_of` txns
  ∧ (∀ h, h ∈ result (FilterKnown txns) self
          ↔ h ∈ txns ∧ Txns self !! h = None)
  ∧ after (FilterKnown txns) self = self.
Proof.
  unfold FilterKnown, result, after. rewrite FilterKnown_loop_eq. simpl.
  split; [done|]. split; [apply sublist_filter|]. split; [|done].
  intros h. rewrite list_elem_of_filter. tauto.
Qed.

(** *** removeTxns and RemoveTransactions *)

Lemma removeTxns_lookup bc (hashes : list SHA256) self h :
  Txns (after (removeTxns bc hashes) self) !! h
  = (if decide (h ∈ hashes) then None else Txns self !! h)
  ∧ Unspent (after (removeTxns bc hashes) self) !! h
    = (if decide (h ∈ hashes) then None else Unspent self !! h).
Proof.
  revert self. induction hashes as [|k rest IH]; intros self.
  - split; by rewrite decide_False by set_solver.
  - unfold after in *. simpl. pool_unfold.
    destruct (IH {| Txns := delete k (Txns self);
                    Unspent := delete k (Unspent self) |}) as [IHt IHu].
    simpl in *. rewrite IHt, IHu. clear IH IHt IHu.
    destruct (decide (h = k)) as [->|Hne].
    + rewrite !lookup_delete_eq.
      split; repeat case_decide; try done; set_solver.
    + rewrite !lookup_delete_ne by done.
      split; repeat case_decide; try done; set_solver.
Qed.

Lemma removeTxns_nil bc self : after (removeTxns bc []) self = self.
Proof. done. Qed.

(** C6.  [RemoveTransactions] deletes from the table and from the index
    of predicted unspents the entries under the hash of one of the given
    transactions and keeps every other entry as it is; a hash that is not
    in the pool is passed over, so that the pool stays as it is when none
    of them is in it (the method returns nothing, so no error either).
    Recording a transaction in a new pool and removing it leaves a new
    pool, in which [FilterKnown] returns its hash as unknown. *)
Theorem RemoveTransactions_spec bc (txns : list Transaction) self :
  let self' := after (RemoveTransactions bc txns) self in
  (∀ h, h ∈ Transaction_Hash <$> txns →
        Txns self' !! h = None ∧ Unspent self' !! h = None)
  ∧ (∀ h, h ∉ Transaction_Hash <$> txns →
          Txns self' !! h = Txns self !! h
          ∧ Unspent self' !! h = Unspent self !! h)
  ∧ ((∀ t, t ∈ txns → Txns self !! Transaction_Hash t = None
                      ∧ Unspent self !! Transaction_Hash t = None) →
     self' = self)
  ∧ (∀ bc' t addrs maxSize burnFactor now,
        let recorded :=
          after (RecordTxn bc' t addrs maxSize burnFactor now)
            NewUnconfirmedTxnPool in
        let removed := after (RemoveTransactions bc [t]) recorded in
        removed = NewUnconfirmedTxnPool
        ∧ result (FilterKnown [Transaction_Hash t]) removed
          = [Transaction_Hash t]).
Proof.
  intros self'. subst self'. unfold RemoveTransactions.
  split; [|split; [|split]].
  - intros h Hin.
    destruct (removeTxns_lookup bc (Transaction_Hash <$> txns) self h)
      as [-> ->].
    rewrite !decide_True by done. done.
  - intros h Hout.
    destruct (removeTxns_lookup bc (Transaction_Hash <$> txns) self h)
      as [-> ->].
    rewrite !decide_False by done. done.
  - intros Habsent. apply pool_eq; apply map_eq; intros h.
    all: destruct (removeTxns_lookup bc (Transaction_Hash <$> txns) self h)
      as [Ht Hu]; first [rewrite Ht | rewrite Hu]; clear Ht Hu.
    all: case_decide as Hin; [|done].
    all: apply list_elem_of_fmap in Hin as (t & -> & Hin).
    all: symmetry; by apply Habsent.
  - intros bc' t addrs maxSize burnFactor now.
    set (recorded := after (RecordTxn bc' t addrs maxSize burnFactor now)
                       NewUnconfirmedTxnPool).
    set (removed := after (removeTxns bc (Transaction_Hash <$> [t])) recorded).
    assert (removed = NewUnconfirmedTxnPool) as Hempty.
    { subst removed recorded. apply pool_eq; apply map_eq; intros h.
      all: match goal with
           | |- context [removeTxns ?b ?l] =>
               destruct (removeTxns_lookup b l
                 (after (RecordTxn bc' t addrs maxSize burnFactor now)
                    NewUnconfirmedTxnPool) h) as [Ht Hu]
           end.
      all: simpl in *; first [rewrite Ht | rewrite Hu]; clear Ht Hu.
      all: rewrite lookup_empty; case_decide as Hin; [done|].
      all: assert (h ≠ Transaction_Hash t) as Hne by set_solver.
      all: unfold after;
        destruct (RecordTxn_cases bc' t addrs maxSize burnFactor now
                    NewUnconfirmedTxnPool)
          as [[e He]|[(ut & Hut & He)|[Hut He]]]; rewrite He; simpl.
      all: try done.
      all: by rewrite lookup_insert_ne, lookup_empty. }
    split; [done|]. rewrite Hempty.
    unfold result, FilterKnown. rewrite FilterKnown_loop_eq. simpl.
    by rewrite filter_cons_True.
Qed.

(** *** The read-only methods leave the pool as it is *)

Lemma GetKnown_loop_after (txns : list SHA256) known self :
  after (GetKnown_loop txns known) self = self.
Proof.
  revert known. induction txns as [|h rest IH]; intros known; [done|].
  unfold after in *. simpl. pool_unfold.
  destruct (Txns self !! h); apply IH.
Qed.

Lemma queries_after self :
  after RawTxns self = self
  ∧ (∀ txns, after (FilterKnown txns) self = self)
  ∧ (∀ txns, after (GetKnown txns) self = self)
  ∧ (∀ bcUnspent a, after (SpendsForAddresses bcUnspent a) self = self)
  ∧ (∀ bcUnspent a, after (SpendsForAddress bcUnspent a) self = self).
Proof.
  repeat split; intros; try done.
  - unfold after, FilterKnown. by rewrite FilterKnown_loop_eq.
  - apply GetKnown_loop_after.
Qed.

(** *** SetAnnounced *)

Lemma SetAnnounced_after h (t : Time) self :
  after (SetAnnounced h t) self
  = match Txns self !! h with
    | Some tx => {| Txns := <[h := set_Announced t tx]> (Txns self);
                    Unspent := Unspent self |}
    | None => self
    end.
Proof. unfold SetAnnounced. pool_unfold. by destruct (Txns self !! h). Qed.

(** *** Refresh *)

Lemma Refresh_visit_eq bc checkPeriod maxAge now k toRemove self e :
  Txns self !! k = Some e →
  Refresh_visit bc checkPeriod maxAge now k toRemove self
  = match Refresh_outcome bc checkPeriod maxAge now e with
    | Some e' => (toRemove, {| Txns := <[k := e']> (Txns self);
                               Unspent := Unspent self |})
    | None => (toRemove ++ [k], self)
    end.
Proof.
  intros He. unfold Refresh_visit, Refresh_outcome. pool_unfold. rewrite He.
  destruct (maxAge <=? Time_Sub now (Received e)); [done|].
  destruct (checkPeriod <=? Time_Sub now (Checked e)).
  - by destruct (Blockchain_VerifyTransaction bc (Txn e)).
  - f_equal. apply pool_eq; simpl; [|done]. by rewrite insert_id.
Qed.

Lemma Refresh_visit_absent bc checkPeriod maxAge now k toRemove self :
  Txns self !! k = None →
  Refresh_visit bc checkPeriod maxAge now k toRemove self = (toRemove, self).
Proof. intros He. unfold Refresh_visit. pool_unfold. by rewrite He. Qed.

(** The scan keeps the index of predicted unspents and the keys of the
    table; a visited entry becomes what [Refresh_outcome] says, or stays
    and has its key put on the removal list. *)
Lemma Refresh_scan_spec bc checkPeriod maxAge now
    (visit toRemove : list SHA256) self :
  NoDup visit →
  ∃ toRemove' self',
    Refresh_scan bc checkPeriod maxAge now visit toRemove self
    = (toRemove', self')
    ∧ Unspent self' = Unspent self
    ∧ (∀ k, k ∉ visit → Txns self' !! k = Txns self !! k)
    ∧ (∀ k, Txns self !! k = None → Txns self' !! k = None)
    ∧ (∀ k e, k ∈ visit → Txns self !! k = Some e →
         Txns self' !! k
         = Some (default e (Refresh_outcome bc checkPeriod maxAge now e)))
    ∧ (∀ k, k ∈ toRemove' ↔
         k ∈ toRemove
         ∨ (k ∈ visit ∧ ∃ e, Txns self !! k = Some e
              ∧ Refresh_outcome bc checkPeriod maxAge now e = None)).
Proof.
  intros Hnd. revert toRemove self.
  induction Hnd as [|k0 rest Hk0 Hnd IH]; intros toRemove self.
  { exists toRemove, self. split; [done|]. split; [done|].
    split; [done|]. split; [done|]. split.
    - by intros k e ?%elem_of_nil.
    - intros k. split; [by left|].
      by intros [?|[?%elem_of_nil _]]. }
  simpl. unfold mbind, Pool_bind.
  destruct (Txns self !! k0) as [e0|] eqn:He0.
  - rewrite (Refresh_visit_eq _ _ _ _ _ _ _ _ He0).
    destruct (Refresh_outcome bc checkPeriod maxAge now e0) as [e0'|] eqn:Ho.
    + destruct (IH toRemove {| Txns := <[k0 := e0']> (Txns self);
                              Unspent := Unspent self |})
        as (tr & self' & Hrun & Hu & Hout & Hnone & Hin & Hrem).
      simpl in *. exists tr, self'. split; [done|]. split; [done|].
      split; [|split; [|split]].
      * intros k Hk. rewrite Hout by set_solver.
        apply lookup_insert_ne. set_solver.
      * intros k Hk. apply Hnone. rewrite lookup_insert_ne; [done|].
        intros ->. congruence.
      * intros k e [->|Hk]%elem_of_cons Hke.
        -- rewrite Hout by done. rewrite lookup_insert_eq.
           simplify_eq. by rewrite Ho.
        -- apply Hin; [done|]. rewrite lookup_insert_ne; [done|].
           intros ->. done.
      * intros k. rewrite Hrem. split.
        -- intros [?|[Hk (e & Hke & Hoe)]]; [by left|right].
           split; [set_solver|]. exists e. split; [|done].
           rewrite lookup_insert_ne in Hke; [done|]. intros ->. done.
        -- intros [?|[Hk (e & Hke & Hoe)]]; [by left|right].
           apply elem_of_cons in Hk as [->|Hk]; [congruence|].
           split; [done|]. exists e. split; [|done].
           rewrite lookup_insert_ne; [done|]. intros ->. done.
    + destruct (IH (toRemove ++ [k0]) self)
        as (tr & self' & Hrun & Hu & Hout & Hnone & Hin & Hrem).
      exists tr, self'. split; [done|]. split; [done|].
      split; [|split; [|split]].
      * intros k Hk. apply Hout. set_solver.
      * done.
      * intros k e [->|Hk]%elem_of_cons Hke.
        -- rewrite Hout by done. simplify_eq. by rewrite Ho.
        -- by apply Hin.
      * intros k. rewrite Hrem, elem_of_app, list_elem_of_singleton.
        split.
        -- intros [[?| ->]|[Hk Hex]]; [by left|right|right].
           ++ split; [left|]. eauto.
           ++ split; [by right|done].
        -- intros [?|[Hk (e & Hke & Hoe)]]; [by left; left|].
           apply elem_of_cons in Hk as [->|Hk]; [by left; right|].
           right. eauto.
  - rewrite (Refresh_visit_absent _ _ _ _ _ _ _ He0).
    destruct (IH toRemove self)
      as (tr & self' & Hrun & Hu & Hout & Hnone & Hin & Hrem).
    exists tr, self'. split; [done|]. split; [done|].
    split; [|split; [|split]].
    + intros k Hk. apply Hout. set_solver.
    + done.
    + intros k e [->|Hk]%elem_of_cons Hke; [congruence|]. by apply Hin.
    + intros k. rewrite Hrem. split.
      * intros [?|[Hk Hex]]; [by left|right]. split; [by right|done].
      * intros [?|[Hk (e & Hke & Hoe)]]; [by left|right].
        apply elem_of_cons in Hk as [->|Hk]; [congruence|]. eauto.
Qed.

Lemma visit_keys (visit : list SHA256) self :
  visit ≡ₚ (map_to_list (Txns self)).*1 →
  NoDup visit ∧ ∀ k, k ∈ visit ↔ is_Some (Txns self !! k).
Proof.
  intros Hp. split.
  - rewrite Hp. apply NoDup_fst_map_to_list.
  - intros k. rewrite Hp, list_elem_of_fmap. split.
    + intros ([k' e] & -> & Hin). apply elem_of_map_to_list in Hin. eauto.
    + intros [e He]. exists (k, e). split; [done|].
      by apply elem_of_map_to_list.
Qed.

(** Entry by entry, what [Refresh] leaves, whatever the order the table
    is visited in. *)
Lemma Refresh_in_lookup bc checkPeriod maxAge now (visit : list SHA256)
    self k :
  visit ≡ₚ (map_to_list (Txns self)).*1 →
  let self' := after (Refresh_in visit bc checkPeriod maxAge now) self in
  Txns self' !! k
  = Txns self !! k ≫= Refresh_outcome bc checkPeriod maxAge now
  ∧ Unspent self' !! k
    = match Txns self !! k with
      | Some e =>
          match Refresh_outcome bc checkPeriod maxAge now e with
          | Some _ => Unspent self !! k
          | None => None
          end
      | None => Unspent self !! k
      end.
Proof.
  intros [Hnd Hkeys]%visit_keys. simpl.
  destruct (Refresh_scan_spec bc checkPeriod maxAge now visit [] self Hnd)
    as (tr & scanned & Hrun & Hu & Hout & Hnone & Hin & Hrem).
  unfold Refresh_in, after, mbind, Pool_bind. rewrite Hrun.
  destruct (removeTxns_lookup bc tr scanned k) as [Ht Hux].
  unfold after in Ht, Hux. rewrite Ht, Hux, Hu. clear Ht Hux.
  destruct (Txns self !! k) as [e|] eqn:He; simpl.
  - assert (k ∈ visit) as Hk by (apply Hkeys; eauto).
    rewrite (Hin k e Hk He).
    destruct (Refresh_outcome bc checkPeriod maxAge now e) as [e'|] eqn:Ho.
    + rewrite !decide_False; [done| |].
      all: rewrite Hrem; intros [[]%elem_of_nil|[_ (e2 & He2 & Ho2)]].
      all: congruence.
    + rewrite !decide_True; [done| |].
      all: rewrite Hrem; right; eauto.
  - assert (k ∉ tr) as Hk.
    { rewrite Hrem. intros [[]%elem_of_nil|[_ (e2 & He2 & _)]]. congruence. }
    rewrite (Hnone k He), !decide_False by done. done.
Qed.

(** The order of the visit does not show in the pool [Refresh] leaves. *)
Lemma Refresh_in_order bc checkPeriod maxAge now (visit : list SHA256) self :
  visit ≡ₚ (map_to_list (Txns self)).*1 →
  after (Refresh_in visit bc checkPeriod maxAge now) self
  = after (Refresh bc checkPeriod maxAge now) self.
Proof.
  intros Hp. apply pool_eq; apply map_eq; intros k.
  all: destruct (Refresh_in_lookup bc checkPeriod maxAge now visit self k Hp)
    as [Ht Hu].
  all: destruct (Refresh_in_lookup bc checkPeriod maxAge now
                   (map_to_list (Txns self)).*1 self k (reflexivity _))
    as [Ht' Hu'].
  all: simpl in *; unfold Refresh; pool_unfold; simpl; congruence.
Qed.

Lemma Refresh_lookup bc checkPeriod maxAge now self k :
  Txns (after (Refresh bc checkPeriod maxAge now) self) !! k
  = Txns self !! k ≫= Refresh_outcome bc checkPeriod maxAge now.
Proof.
  rewrite <- (Refresh_in_order _ _ _ _ (map_to_list (Txns self)).*1)
    by done.
  by apply Refresh_in_lookup.
Qed.

(** C5.  [Refresh] deals with each entry [e] of the table thus: when
    [now - e.Received >= maxAge] the entry is removed from both maps,
    whatever the ledger makes of its transaction; otherwise, when
    [now - e.Checked >= checkPeriod], the transaction is validated again
    and the entry gets [Checked = now] when it passes and is removed from
    both maps when it fails; otherwise the entry is left as it is.  The
    removals are carried out on the pool the whole scan leaves, and the
    scan itself removes nothing.  This holds in whatever order the table
    is visited, and the pool left does not depend on that order. *)
Theorem Refresh_spec bc (checkPeriod maxAge : Duration) now
    (visit : list SHA256) self :
  visit ≡ₚ (map_to_list (Txns self)).*1 →
  let self' := after (Refresh_in visit bc checkPeriod maxAge now) self in
  (∀ k e, Txns self !! k = Some e →
     (maxAge ≤ Time_Sub now (Received e) →
        Txns self' !! k = None ∧ Unspent self' !! k = None)
     ∧ (Time_Sub now (Received e) < maxAge →
        checkPeriod ≤ Time_Sub now (Checked e) →
        Blockchain_VerifyTransaction bc (Txn e) = None →
        Txns self' !! k
        = Some {| Txn := Txn e; Received := Received e; Checked := now;
                  Announced := Announced e |}
        ∧ Unspent self' !! k = Unspent self !! k)
     ∧ (Time_Sub now (Received e) < maxAge →
        checkPeriod ≤ Time_Sub now (Checked e) →
        Blockchain_VerifyTransaction bc (Txn e) ≠ None →
        Txns self' !! k = None ∧ Unspent self' !! k = None)
     ∧ (Time_Sub now (Received e) < maxAge →
        Time_Sub now (Checked e) < checkPeriod →
        Txns self' !! k = Some e ∧ Unspent self' !! k = Unspent self !! k))
  ∧ (∀ k, Txns self !! k = None →
          Txns self' !! k = None ∧ Unspent self' !! k = Unspent self !! k)
  ∧ (∃ toRemove scanned,
        Refresh_scan bc checkPeriod maxAge now visit [] self
        = (toRemove, scanned)
        ∧ dom (Txns scanned) = dom (Txns self)
        ∧ Unspent scanned = Unspent self
        ∧ self' = after (removeTxns bc toRemove) scanned)
  ∧ after (Refresh bc checkPeriod maxAge now) self = self'.
Proof.
  intros Hp self'.
  pose proof (λ k, Refresh_in_lookup bc checkPeriod maxAge now visit self k Hp)
    as Hlook. simpl in Hlook. fold self' in Hlook.
  split; [|split; [|split]].
  - intros k e He. destruct (Hlook k) as [Ht Hu]. rewrite He in Ht, Hu.
    simpl in Ht. unfold Refresh_outcome in Ht, Hu.
    repeat split; intros.
    + rewrite (proj2 (Z.leb_le _ _)) in Ht, Hu by done. done.
    + rewrite (proj2 (Z.leb_le _ _)) in Ht, Hu by done. done.
    + rewrite (proj2 (Z.leb_gt _ _)) in Ht by done.
      rewrite (proj2 (Z.leb_le _ _)) in Ht by done.
      by destruct (Blockchain_VerifyTransaction bc (Txn e)).
    + rewrite (proj2 (Z.leb_gt _ _)) in Hu by done.
      rewrite (proj2 (Z.leb_le _ _)) in Hu by done.
      by destruct (Blockchain_VerifyTransaction bc (Txn e)).
    + rewrite (proj2 (Z.leb_gt _ _)) in Ht by done.
      rewrite (proj2 (Z.leb_le _ _)) in Ht by done.
      by destruct (Blockchain_VerifyTransaction bc (Txn e)).
    + rewrite (proj2 (Z.leb_gt _ _)) in Hu by done.
      rewrite (proj2 (Z.leb_le _ _)) in Hu by done.
      by destruct (Blockchain_VerifyTransaction bc (Txn e)).
    + by rewrite !(proj2 (Z.leb_gt _ _)) in Ht by done.
    + by rewrite !(proj2 (Z.leb_gt _ _)) in Hu by done.
  - intros k He. destruct (Hlook k) as [Ht Hu]. by rewrite He in Ht, Hu.
  - destruct (visit_keys visit self Hp) as [Hnd Hkeys].
    destruct (Refresh_scan_spec bc checkPeriod maxAge now visit [] self Hnd)
      as (tr & scanned & Hrun & Hu & Hout & Hnone & Hin & Hrem).
    exists tr, scanned. split; [done|]. split; [|split; [done|]].
    + apply set_eq. intros k. rewrite !elem_of_dom.
      destruct (Txns self !! k) as [e|] eqn:He.
      * rewrite (Hin k e); [by split; eauto| |done]. apply Hkeys. eauto.
      * by rewrite (Hnone k He).
    + subst self'. unfold Refresh_in, after, mbind, Pool_bind.
      by rewrite Hrun.
  - subst self'. symmetry. by apply Refresh_in_order.
Qed.

(** *** The two maps have the same keys *)

Lemma after_then_ret {A} (c : Pool A) self :
  after (c;; mret tt) self = after c self.
Proof. unfold after, mbind, Pool_bind, mret, Pool_ret. by destruct (c self). Qed.

Lemma consistent_lookup self :
  consistent self ↔ ∀ k, is_Some (Txns self !! k) ↔ is_Some (Unspent self !! k).
Proof.
  unfold consistent. rewrite set_eq. by setoid_rewrite elem_of_dom.
Qed.

Lemma NewUnconfirmedTxnPool_consistent : consistent NewUnconfirmedTxnPool.
Proof. unfold consistent. simpl. by rewrite !dom_empty_L. Qed.

Lemma RecordTxn_consistent bc t addrs maxSize burnFactor now self :
  consistent self →
  consistent (after (RecordTxn bc t addrs maxSize burnFactor now) self).
Proof.
  intros Hc. unfold after.
  destruct (RecordTxn_cases bc t addrs maxSize burnFactor now self)
    as [[e He]|[(ut & Hut & He)|[Hut He]]]; rewrite He; simpl; [done| |].
  - unfold consistent in *. simpl. rewrite dom_insert_L, <- Hc.
    apply elem_of_dom_2 in Hut. set_solver.
  - unfold consistent in *. simpl. rewrite !dom_insert_L. by rewrite Hc.
Qed.

Lemma SetAnnounced_consistent h (t : Time) self :
  consistent self → consistent (after (SetAnnounced h t) self).
Proof.
  intros Hc. rewrite SetAnnounced_after.
  destruct (Txns self !! h) as [tx|] eqn:Htx; [|done].
  unfold consistent in *. simpl. rewrite dom_insert_L, <- Hc.
  apply elem_of_dom_2 in Htx. set_solver.
Qed.

Lemma removeTxns_consistent bc (hashes : list SHA256) self :
  consistent self → consistent (after (removeTxns bc hashes) self).
Proof.
  rewrite !consistent_lookup. intros Hc k.
  destruct (removeTxns_lookup bc hashes self k) as [-> ->].
  by case_decide.
Qed.

Lemma Refresh_consistent bc checkPeriod maxAge now self :
  consistent self → consistent (after (Refresh bc checkPeriod maxAge now) self).
Proof.
  rewrite !consistent_lookup. intros Hc k.
  rewrite <- (Refresh_in_order _ _ _ _ (map_to_list (Txns self)).*1) by done.
  destruct (Refresh_in_lookup bc checkPeriod maxAge now
              (map_to_list (Txns self)).*1 self k (reflexivity _)) as [-> ->].
  specialize (Hc k).
  destruct (Txns self !! k) as [e|]; simpl; [|done].
  destruct (Refresh_outcome bc checkPeriod maxAge now e); [|done].
  split; [intros _; apply Hc; eauto|eauto].
Qed.

Lemma exec_consistent now (op : Op) self :
  consistent self → consistent (after (exec now op) self).
Proof.
  intros Hc. destruct (queries_after self) as (Hq1 & Hq2 & Hq3 & Hq4 & Hq5).
  destruct op; simpl; rewrite ?after_then_ret.
  - by apply RecordTxn_consistent.
  - by apply SetAnnounced_consistent.
  - by apply removeTxns_consistent.
  - by apply Refresh_consistent.
  - by rewrite Hq1.
  - by rewrite Hq2.
  - by rewrite Hq3.
  - by rewrite Hq4.
  - by rewrite Hq5.
Qed.

(** C1.  Along every history of operations on a pool made by
    [NewUnconfirmedTxnPool], the table of pending transactions and the
    index of predicted unspents have the same set of keys: before the
    first operation and after each one. *)
Theorem pool_keys_agree (history : list (Time * Op)) :
  Forall (λ self, dom (Txns self) = dom (Unspent self))
    (trace history NewUnconfirmedTxnPool).
Proof.
  change (Forall consistent (trace history NewUnconfirmedTxnPool)).
  generalize NewUnconfirmedTxnPool_consistent.
  generalize NewUnconfirmedTxnPool.
  induction history as [|[now op] rest IH]; intros self Hc; simpl.
  - by repeat constructor.
  - constructor; [done|]. apply IH. by apply exec_consistent.
Qed.

(** *** Recording a transaction twice *)

(** C3, amended.  For a transaction [t] that passes both validations and
    is not in the table yet, two calls of [RecordTxn], the second when
    the clock reads no less than at the first, return [(nil, false)] and
    then [(nil, true)]; the second call adds no entry, leaves the
    transaction and the predicted unspents of the entry as they were, and
    the [Checked] of the entry is no less than after the first call. *)
Theorem RecordTxn_twice bc t (addrs1 addrs2 : gmap Address byte)
    maxSize burnFactor (now1 now2 : Time) self :
  VerifyTransaction bc t maxSize burnFactor = None →
  Blockchain_VerifyTransaction bc t = None →
  Txns self !! Transaction_Hash t = None →
  now1 ≤ now2 →
  let first := RecordTxn bc t addrs1 maxSize burnFactor now1 in
  let second := RecordTxn bc t addrs2 maxSize burnFactor now2 in
  let self1 := after first self in
  let self2 := after second self1 in
  result first self = (None, false)
  ∧ result second self1 = (None, true)
  ∧ size (Txns self2) = size (Txns self1)
  ∧ dom (Txns self2) = dom (Txns self1)
  ∧ (∃ e1 e2,
        Txns self1 !! Transaction_Hash t = Some e1
        ∧ Txns self2 !! Transaction_Hash t = Some e2
        ∧ Checked e1 ≤ Checked e2
        ∧ Txn e1 = t ∧ Txn e2 = t)
  ∧ Unspent self2 = Unspent self1
  ∧ (∀ k, k ≠ Transaction_Hash t → Txns self2 !! k = Txns self1 !! k).
Proof.
  intros Hp Hl Hnew Hclock first second self1 self2.
  subst first second self1 self2. unfold result, after.
  rewrite (RecordTxn_new _ _ addrs1 _ _ now1 _ Hp Hl Hnew). simpl.
  rewrite (RecordTxn_known _ _ addrs2 _ _ now2 _ _ Hp Hl
             (lookup_insert_eq _ _ _)). simpl.
  split; [done|]. split; [done|]. split; [|split; [|split; [|split]]].
  - apply map_size_insert_Some. by rewrite lookup_insert_eq.
  - rewrite !dom_insert_L. set_solver.
  - eexists _, _. rewrite !lookup_insert_eq. by repeat split.
  - done.
  - intros k Hk. by rewrite !lookup_insert_ne.
Qed.

(** *** Timestamps along a history *)

(** After one operation a timestamp of an entry is the reading of the
    clock, or the one the entry under that key had before. *)
Lemma exec_stamps now (op : Op) self k e' :
  Txns (after (exec now op) self) !! k = Some e' →
  (Received e' = now
   ∨ ∃ e, Txns self !! k = Some e ∧ Received e' = Received e)
  ∧ (Checked e' = now
     ∨ ∃ e, Txns self !! k = Some e ∧ Checked e' = Checked e).
Proof.
  destruct (queries_after self) as (Hq1 & Hq2 & Hq3 & Hq4 & Hq5).
  destruct op; simpl; rewrite ?after_then_ret, ?Hq1, ?Hq2, ?Hq3, ?Hq4, ?Hq5.
  all: try (intros He'; split; right; by exists e').
  - unfold after.
    destruct (RecordTxn_cases bc t addrs maxSize burnFactor now self)
      as [[e He]|[(ut & Hut & He)|[Hut He]]]; rewrite He; simpl.
    + intros He'; split; right; by exists e'.
    + destruct (decide (k = Transaction_Hash t)) as [->|Hne].
      * rewrite lookup_insert_eq. intros [= <-]. by split; left.
      * rewrite lookup_insert_ne by done.
        intros He'; split; right; by exists e'.
    + destruct (decide (k = Transaction_Hash t)) as [->|Hne].
      * rewrite lookup_insert_eq. intros [= <-]. by split; left.
      * rewrite lookup_insert_ne by done.
        intros He'; split; right; by exists e'.
  - rewrite SetAnnounced_after.
    destruct (Txns self !! h) as [tx|] eqn:Htx; simpl.
    + destruct (decide (k = h)) as [->|Hne].
      * rewrite lookup_insert_eq. intros [= <-]. split; right; by exists tx.
      * rewrite lookup_insert_ne by done.
        intros He'; split; right; by exists e'.
    + intros He'; split; right; by exists e'.
  - unfold RemoveTransactions.
    destruct (removeTxns_lookup bc (Transaction_Hash <$> txns) self k)
      as [-> _].
    case_decide; [done|]. intros He'; split; right; by exists e'.
  - rewrite Refresh_lookup.
    destruct (Txns self !! k) as [e|] eqn:He; [simpl|done].
    unfold Refresh_outcome. repeat case_match; try done.
    + intros [= <-]. split; [right; by exists e|by left].
    + intros [= <-]. split; right; by exists e.
Qed.

(** Timestamps at least [a] and [b] stay so when the clock reads at
    least [a] and [b] from then on, also across a removal. *)
Lemma run_floor (history : list (Time * Op)) self (a b : Time) k :
  (∀ now, now ∈ history.*1 → a ≤ now ∧ b ≤ now) →
  (∀ e, Txns self !! k = Some e → a ≤ Received e ∧ b ≤ Checked e) →
  ∀ e', Txns (run history self) !! k = Some e' →
        a ≤ Received e' ∧ b ≤ Checked e'.
Proof.
  revert self. induction history as [|[now op] rest IH]; intros self Hclock Hfl;
    simpl; [done|].
  apply IH.
  - intros now' Hin. apply Hclock. simpl. by right.
  - intros e1 He1. destruct (Hclock now) as [Ha Hb]; [simpl; by left|].
    destruct (exec_stamps now op self k e1 He1)
      as [[->|(e & He & ->)] [->|(e0 & He0 & ->)]]; split; try done.
    all: by eapply Hfl.
Qed.

(** Every timestamp in the pool is a clock reading of the history. *)
Lemma run_stamps (history : list (Time * Op)) self (readings : list Time) :
  (∀ k e, Txns self !! k = Some e →
          Received e ∈ readings ∧ Checked e ∈ readings) →
  ∀ k e, Txns (run history self) !! k = Some e →
         Received e ∈ readings ++ history.*1
         ∧ Checked e ∈ readings ++ history.*1.
Proof.
  revert self readings.
  induction history as [|[now op] rest IH]; intros self readings Hst; simpl.
  { rewrite app_nil_r. done. }
  intros k e He.
  rewrite (cons_middle now readings), app_assoc.
  revert k e He. apply IH. intros k e1 He1.
  rewrite !elem_of_app, !list_elem_of_singleton.
  destruct (exec_stamps now op self k e1 He1)
    as [[->|(e & He & ->)] [->|(e0 & He0 & ->)]]; split; try by right.
  all: left; by eapply Hst.
Qed.

Lemma run_app (before later : list (Time * Op)) self :
  run (before ++ later) self = run later (run before self).
Proof.
  revert self. induction before as [|[now op] rest IH]; intros self; [done|].
  simpl. apply IH.
Qed.

Lemma clock_monotone_cons (r0 : Time) (readings : list Time) :
  clock_monotone (r0 :: readings) = true →
  clock_monotone readings = true ∧ ∀ r', r' ∈ readings → r0 ≤ r'.
Proof.
  revert r0. induction readings as [|r1 rest IH]; intros r0 Hm.
  - split; [done|]. by intros r' ?%elem_of_nil.
  - change (((r0 <=? r1) && clock_monotone (r1 :: rest)) = true) in Hm.
    apply andb_true_iff in Hm as [Hle Hm]. apply Z.leb_le in Hle.
    split; [done|]. destruct (IH r1 Hm) as [_ Hall].
    intros r' [->|Hin]%elem_of_cons; [done|].
    specialize (Hall r' Hin). lia.
Qed.

Lemma clock_monotone_app (early late : list Time) :
  clock_monotone (early ++ late) = true →
  ∀ r0 r', r0 ∈ early → r' ∈ late → r0 ≤ r'.
Proof.
  induction early as [|r1 rest IH]; intros Hm r0 r' Hin Hin'.
  - by apply elem_of_nil in Hin.
  - apply clock_monotone_cons in Hm as [Hm Hall].
    apply elem_of_cons in Hin as [->|Hin].
    + apply Hall. apply elem_of_app. by right.
    + by apply IH.
Qed.

(** C9.  Along a history from a new pool in which the clock never steps
    back, the [Received] and the [Checked] of the entry under a key at
    one point are no more than those of the entry under that key at any
    later point.  [RecordTxn] on a transaction that is in the table sets
    both to [now]; [Refresh] keeps [Received] and either keeps [Checked]
    or sets it to [now]. *)
Theorem timestamps_monotone :
  (∀ (before later : list (Time * Op)) k e e',
      clock_monotone (before ++ later).*1 = true →
      Txns (run before NewUnconfirmedTxnPool) !! k = Some e →
      Txns (run (before ++ later) NewUnconfirmedTxnPool) !! k = Some e' →
      Received e ≤ Received e' ∧ Checked e ≤ Checked e')
  ∧ (∀ bc t addrs maxSize burnFactor now self,
        result (RecordTxn bc t addrs maxSize burnFactor now) self
        = (None, true) →
        ∃ e e',
          Txns self !! Transaction_Hash t = Some e
          ∧ Txns (after (RecordTxn bc t addrs maxSize burnFactor now) self)
              !! Transaction_Hash t = Some e'
          ∧ Received e' = now ∧ Checked e' = now)
  ∧ (∀ bc checkPeriod maxAge now self k e',
        Txns (after (Refresh bc checkPeriod maxAge now) self) !! k = Some e' →
        ∃ e, Txns self !! k = Some e
             ∧ Received e' = Received e
             ∧ (Checked e' = Checked e ∨ Checked e' = now)).
Proof.
  split; [|split].
  - intros before later k e e' Hm He He'.
    rewrite fmap_app in Hm. rewrite run_app in He'.
    destruct (run_stamps before NewUnconfirmedTxnPool []) with (k := k) (e := e)
      as [HR HC]; [intros k0 e0 Hk0; simpl in Hk0; by simplify_map_eq|done|].
    simpl in HR, HC.
    apply (run_floor later (run before NewUnconfirmedTxnPool)
             (Received e) (Checked e) k); [| |done].
    + intros now Hnow. split; by eapply clock_monotone_app.
    + intros e0 He0. by simplify_eq.
  - intros bc t addrs maxSize burnFactor now self Hres.
    unfold result, after in *.
    destruct (RecordTxn_cases bc t addrs maxSize burnFactor now self)
      as [[e He]|[(ut & Hut & He)|[Hut He]]]; rewrite He in Hres |- *;
      simplify_eq.
    eexists ut, _. split; [done|]. simpl. rewrite lookup_insert_eq. done.
  - intros bc checkPeriod maxAge now self k e'. rewrite Refresh_lookup.
    destruct (Txns self !! k) as [e|] eqn:He; [simpl|done].
    unfold Refresh_outcome. repeat case_match; try done.
    + intros [= <-]. exists e. split; [done|]. split; [done|]. by right.
    + intros [= <-]. exists e. split; [done|]. split; [done|]. by left.
Qed.

(** *** SpendsForAddresses *)

Lemma index_insert (auxs : gmap Address (list UxOut)) (x y : Address)
    (uxa : list UxOut) :
  index (<[y := uxa]> auxs) x = if decide (y = x) then uxa else index auxs x.
Proof.
  unfold index. case_decide as Hxy.
  - subst. by rewrite lookup_insert_eq.
  - by rewrite lookup_insert_ne.
Qed.

Lemma Spends_inputs_index (bcUnspent : UnspentPool) (a : gmap Address byte)
    (ins : list SHA256) (auxs : gmap Address (list UxOut)) (x : Address) :
  index (Spends_inputs bcUnspent a ins auxs) x
  = index auxs x
    ++ (if decide (is_Some (a !! x))
        then filter (λ ux, UxOut_Address ux = x)
               (omap (UnspentPool_Get bcUnspent) ins)
        else []).
Proof.
  revert auxs. induction ins as [|hin rest IH]; intros auxs; simpl.
  { case_decide; by rewrite ?filter_nil, app_nil_r. }
  destruct (UnspentPool_Get bcUnspent hin) as [ux|]; [|apply IH].
  destruct (a !! UxOut_Address ux) as [b|] eqn:Ha.
  - rewrite IH, index_insert. clear IH.
    destruct (decide (is_Some (a !! x))) as [Hx|Hx].
    + destruct (decide (UxOut_Address ux = x)) as [<-|Hne].
      * rewrite filter_cons_True by done. by rewrite <- app_assoc.
      * by rewrite filter_cons_False.
    + rewrite decide_False; [done|]. intros <-. apply Hx. eauto.
  - rewrite IH. clear IH.
    destruct (decide (is_Some (a !! x))) as [Hx|Hx]; [|done].
    rewrite filter_cons_False; [done|]. intros <-.
    destruct Hx as [? Hx]. congruence.
Qed.

Lemma Spends_inputs_absent (bcUnspent : UnspentPool) (a : gmap Address byte)
    (ins : list SHA256) (auxs : gmap Address (list UxOut)) (x : Address) :
  a !! x = None → auxs !! x = None →
  Spends_inputs bcUnspent a ins auxs !! x = None.
Proof.
  intros Ha. revert auxs. induction ins as [|hin rest IH]; intros auxs Hx;
    simpl; [done|].
  destruct (UnspentPool_Get bcUnspent hin) as [ux|]; [|by apply IH].
  destruct (a !! UxOut_Address ux) as [b|] eqn:Hux; [|by apply IH].
  apply IH. rewrite lookup_insert_ne; [done|]. intros Heq. congruence.
Qed.

Lemma pending_spends_cons (bcUnspent : UnspentPool)
    (kv : SHA256 * UnconfirmedTxn) (rest : list (SHA256 * UnconfirmedTxn)) :
  pending_spends bcUnspent (kv :: rest)
  = omap (UnspentPool_Get bcUnspent) (Transaction_In (Txn kv.2))
    ++ pending_spends bcUnspent rest.
Proof. done. Qed.

Lemma Spends_visit_index (bcUnspent : UnspentPool) (a : gmap Address byte)
    (visit : list (SHA256 * UnconfirmedTxn))
    (auxs : gmap Address (list UxOut)) (x : Address) :
  index (foldl (λ auxs kv,
                  Spends_inputs bcUnspent a (Transaction_In (Txn kv.2)) auxs)
               auxs visit) x
  = index auxs x
    ++ (if decide (is_Some (a !! x))
        then filter (λ ux, UxOut_Address ux = x)
               (pending_spends bcUnspent visit)
        else []).
Proof.
  revert auxs. induction visit as [|kv rest IH]; intros auxs.
  { simpl. case_decide; by rewrite ?filter_nil, app_nil_r. }
  rewrite pending_spends_cons. cbn [foldl].
  rewrite IH, Spends_inputs_index.
  case_decide; [|by rewrite !app_nil_r].
  by rewrite filter_app, app_assoc.
Qed.

Lemma Spends_visit_absent (bcUnspent : UnspentPool) (a : gmap Address byte)
    (visit : list (SHA256 * UnconfirmedTxn))
    (auxs : gmap Address (list UxOut)) (x : Address) :
  a !! x = None → auxs !! x = None →
  foldl (λ auxs kv,
           Spends_inputs bcUnspent a (Transaction_In (Txn kv.2)) auxs)
        auxs visit !! x = None.
Proof.
  intros Ha. revert auxs. induction visit as [|kv rest IH]; intros auxs Hx;
    simpl; [done|].
  apply IH. by apply Spends_inputs_absent.
Qed.

Lemma elem_of_pending_spends (bcUnspent : UnspentPool)
    (visit : list (SHA256 * UnconfirmedTxn)) self (ux : UxOut) :
  visit ≡ₚ map_to_list (Txns self) →
  ux ∈ pending_spends bcUnspent visit
  ↔ ∃ k utx hin, Txns self !! k = Some utx
                 ∧ hin ∈ Transaction_In (Txn utx)
                 ∧ UnspentPool_Get bcUnspent hin = Some ux.
Proof.
  intros Hp. unfold pending_spends. rewrite list_elem_of_bind. split.
  - intros ([k utx] & Hux & Hkv). rewrite Hp in Hkv.
    apply elem_of_map_to_list in Hkv.
    apply list_elem_of_omap in Hux as (hin & Hin & Hget). simpl in *.
    by exists k, utx, hin.
  - intros (k & utx & hin & Hk & Hin & Hget). exists (k, utx). split.
    + apply list_elem_of_omap. by exists hin.
    + rewrite Hp. by apply elem_of_map_to_list.
Qed.

(** C7.  For an address [x] of the set [a], [SpendsForAddresses] returns
    under [x] the outputs owned by [x] among the source outputs, looked
    up in the unspent pool of the ledger, of the inputs of the pending
    transactions: one for each input that resolves, in the order the
    table is visited; an address outside [a] gets no key, and an input
    that does not resolve adds nothing.  Two visits of the table give the
    same lists up to their order.  [SpendsForAddress x] returns what
    [SpendsForAddresses] on the set of [x] alone holds under [x].  The
    pool is not changed. *)
Theorem SpendsForAddresses_spec (bcUnspent : UnspentPool)
    (a : gmap Address byte) (visit : list (SHA256 * UnconfirmedTxn)) self :
  visit ≡ₚ map_to_list (Txns self) →
  let auxs := result (SpendsForAddresses_in visit bcUnspent a) self in
  (∀ x, is_Some (a !! x) →
        index auxs x
        = filter (λ ux, UxOut_Address ux = x)
            (pending_spends bcUnspent visit))
  ∧ (∀ x ux, is_Some (a !! x) →
        ux ∈ index auxs x
        ↔ UxOut_Address ux = x
          ∧ ∃ k utx hin, Txns self !! k = Some utx
                         ∧ hin ∈ Transaction_In (Txn utx)
                         ∧ UnspentPool_Get bcUnspent hin = Some ux)
  ∧ (∀ x, a !! x = None → auxs !! x = None)
  ∧ (∀ x, index (result (SpendsForAddresses bcUnspent a) self) x
          ≡ₚ index auxs x)
  ∧ (∀ x, result (SpendsForAddress_in visit bcUnspent x) self
          = index (result (SpendsForAddresses_in visit bcUnspent
                             {[ x := x01 ]}) self) x)
  ∧ (∀ x, result (SpendsForAddress bcUnspent x) self
          ≡ₚ index (result (SpendsForAddresses_in visit bcUnspent
                              {[ x := x01 ]}) self) x)
  ∧ after (SpendsForAddresses_in visit bcUnspent a) self = self
  ∧ after (SpendsForAddresses bcUnspent a) self = self.
Proof.
  intros Hp auxs. subst auxs.
  assert (∀ (b : gmap Address byte) visit' x,
            index (result (SpendsForAddresses_in visit' bcUnspent b) self) x
            = if decide (is_Some (b !! x))
              then filter (λ ux, UxOut_Address ux = x)
                     (pending_spends bcUnspent visit')
              else []) as Hindex.
  { intros b visit' x. unfold result, SpendsForAddresses_in. simpl.
    by rewrite Spends_visit_index. }
  assert (∀ (b : gmap Address byte) x,
            index (result (SpendsForAddresses bcUnspent b) self) x
            ≡ₚ index (result (SpendsForAddresses_in visit bcUnspent b) self) x)
    as Horder.
  { intros b x. rewrite Hindex.
    change (result (SpendsForAddresses bcUnspent b) self)
      with (result (SpendsForAddresses_in (map_to_list (Txns self))
                      bcUnspent b) self).
    rewrite Hindex. case_decide; [|done].
    unfold pending_spends. by rewrite Hp. }
  split; [|split; [|split; [|split; [|split; [|split]]]]].
  - intros x Hx. rewrite Hindex. by rewrite decide_True.
  - intros x ux Hx. rewrite Hindex, decide_True by done.
    rewrite list_elem_of_filter, (elem_of_pending_spends _ _ self) by done.
    done.
  - intros x Hx. unfold result, SpendsForAddresses_in. simpl.
    by apply Spends_visit_absent.
  - intros x. apply Horder.
  - done.
  - intros x.
    change (result (SpendsForAddress bcUnspent x) self)
      with (index (result (SpendsForAddresses bcUnspent {[ x := x01 ]}) self)
              x).
    apply Horder.
  - done.
Qed.

(** * Further properties of the methods *)

(** *** SetAnnounced *)

(** X1.  [SetAnnounced h t] sets [Announced] of the entry under [h] to
    [t] and keeps its transaction, [Received] and [Checked]; when [h] is
    not in the table the pool stays as it is.  No other entry changes,
    the index of predicted unspents is not touched, no key is added or
    removed, and of two calls for one hash the later one wins. *)
Theorem SetAnnounced_spec h (ta tb : Time) self :
  let self' := after (SetAnnounced h tb) self in
  (∀ tx, Txns self !! h = Some tx →
         Txns self' !! h
         = Some {| Txn := Txn tx; Received := Received tx;
                   Checked := Checked tx; Announced := tb |})
  ∧ (Txns self !! h = None → self' = self)
  ∧ (∀ k, k ≠ h → Txns self' !! k = Txns self !! k)
  ∧ Unspent self' = Unspent self
  ∧ dom (Txns self') = dom (Txns self)
  ∧ after (SetAnnounced h tb) (after (SetAnnounced h ta) self) = self'.
Proof.
  intros self'. subst self'. rewrite !SetAnnounced_after.
  destruct (Txns self !! h) as [tx|] eqn:Htx.
  - simpl. rewrite !lookup_insert_eq.
    split; [|split; [|split; [|split; [|split]]]].
    + by intros tx' [= <-].
    + done.
    + intros k Hk. by rewrite lookup_insert_ne.
    + done.
    + rewrite dom_insert_L. apply elem_of_dom_2 in Htx.
      apply set_eq. intros k. rewrite elem_of_union, elem_of_singleton.
      split; [by intros [->|?]|by right].
    + apply pool_eq; simpl; [|done]. by rewrite insert_insert_eq.
  - rewrite Htx. repeat split; done.
Qed.

(** *** GetKnown *)

Lemma GetKnown_loop_eq (txns : list SHA256) (known : list Transaction) self :
  GetKnown_loop txns known self
  = (known ++ omap (λ h, Txn <$> Txns self !! h) txns, self).
Proof.
  revert known. induction txns as [|h rest IH]; intros known; simpl.
  - by rewrite app_nil_r.
  - pool_unfold. destruct (Txns self !! h) as [ut|] eqn:Hh; simpl.
    + rewrite IH. by rewrite <- app_assoc.
    + by rewrite IH.
Qed.

(** X2.  [GetKnown] returns the transactions of the entries under the
    given hashes that are keys of the table, in the order of the hashes
    and once for each occurrence; a hash that is not a key is passed
    over, so the result is empty when none of them is one.  The pool is
    not changed. *)
Theorem GetKnown_spec (txns : list SHA256) self :
  result (GetKnown txns) self = omap (λ h, Txn <$> Txns self !! h) txns
  ∧ (∀ t, t ∈ result (GetKnown txns) self
          ↔ ∃ h e, h ∈ txns ∧ Txns self !! h = Some e ∧ Txn e = t)
  ∧ ((∀ h, h ∈ txns → Txns self !! h = None) →
     result (GetKnown txns) self = [])
  ∧ after (GetKnown txns) self = self.
Proof.
  unfold GetKnown, result, after. rewrite GetKnown_loop_eq. simpl.
  split; [done|]. split; [|split; [|done]].
  - intros t. rewrite list_elem_of_omap. split.
    + intros (h & Hin & Hh).
      destruct (Txns self !! h) as [e|] eqn:He; simplify_eq/=.
      by exists h, e.
    + intros (h & e & Hin & He & <-). exists h. by rewrite He.
  - intros Hnone. induction txns as [|h rest IH]; [done|]. simpl.
    rewrite (Hnone h) by (by left). simpl. apply IH.
    intros h' Hin. apply Hnone. by right.
Qed.

(** X3.  For one list of hashes and one pool, the number of hashes
    [FilterKnown] returns and the number of transactions [GetKnown]
    returns add up to the number of hashes given. *)
Theorem FilterKnown_GetKnown_partition (txns : list SHA256) self :
  (length (result (FilterKnown txns) self)
   + length (result (GetKnown txns) self))%nat
  = length txns.
Proof.
  unfold FilterKnown, GetKnown, result.
  rewrite FilterKnown_loop_eq, GetKnown_loop_eq. simpl.
  induction txns as [|h rest IH]; [done|]. unfold omap in *. simpl.
  destruct (Txns self !! h) as [e|] eqn:He; simpl.
  - rewrite filter_cons_False by (by rewrite He). lia.
  - rewrite filter_cons_True by done. simpl. lia.
Qed.

(** *** RawTxns *)

(** X4.  [RawTxns] returns one transaction for each entry of the table,
    as many as the table has entries, and exactly the transactions of
    the entries; the order is that of the visit of the table, so two
    calls agree up to the order.  The pool is not changed. *)
Theorem RawTxns_spec (visit : list (SHA256 * UnconfirmedTxn)) self :
  visit ≡ₚ map_to_list (Txns self) →
  let txns := result (RawTxns_in visit) self in
  length txns = size (Txns self)
  ∧ (∀ t, t ∈ txns ↔ ∃ k e, Txns self !! k = Some e ∧ Txn e = t)
  ∧ txns ≡ₚ result RawTxns self
  ∧ after (RawTxns_in visit) self = self
  ∧ after RawTxns self = self.
Proof.
  intros Hp txns. subst txns. unfold result, RawTxns_in. simpl.
  split; [|split; [|split; [|done]]].
  - by rewrite length_fmap, Hp, length_map_to_list.
  - intros t. rewrite list_elem_of_fmap. split.
    + intros ([k e] & -> & Hin). rewrite Hp in Hin.
      apply elem_of_map_to_list in Hin. by exists k, e.
    + intros (k & e & He & <-). exists (k, e). split; [done|].
      rewrite Hp. by apply elem_of_map_to_list.
  - unfold RawTxns, RawTxns_in. pool_unfold. simpl. by rewrite Hp.
Qed.

(** *** AllForAddress *)

Lemma AllForAddress_uxa_eq (a : Address) (uxa uxo : list UxOut) :
  AllForAddress_uxa a uxa uxo
  = uxo ++ filter (λ ux, UxOut_Address ux = a) uxa.
Proof.
  revert uxo. induction uxa as [|ux rest IH]; intros uxo; simpl.
  - by rewrite app_nil_r.
  - case_decide.
    + rewrite IH, filter_cons_True by done. by rewrite <- app_assoc.
    + by rewrite IH, filter_cons_False.
Qed.

Lemma AllForAddress_in_eq (visit : list (SHA256 * list UxOut))
    (a : Address) :
  AllForAddress_in visit a
  = filter (λ ux, UxOut_Address ux = a) (visit ≫= λ kv, kv.2).
Proof.
  unfold AllForAddress_in.
  rewrite <- (app_nil_l (filter _ _)). generalize (@nil UxOut).
  induction visit as [|kv rest IH]; intros uxo.
  - simpl. by rewrite app_nil_r.
  - cbn [foldl]. rewrite IH, AllForAddress_uxa_eq, bind_cons, filter_app.
    by rewrite app_assoc.
Qed.

(** X5.  [AllForAddress a] returns the predicted unspents owned by [a]:
    an output is in the result exactly when it is owned by [a] and is in
    the array under some key of the map; the arrays are gone through in
    the order the map is visited, each in its own order, so two calls
    agree up to the order. *)
Theorem AllForAddress_spec (self : gmap SHA256 (list UxOut))
    (visit : list (SHA256 * list UxOut)) (a : Address) :
  visit ≡ₚ map_to_list self →
  AllForAddress_in visit a
  = filter (λ ux, UxOut_Address ux = a) (visit ≫= λ kv, kv.2)
  ∧ (∀ ux, ux ∈ AllForAddress_in visit a
           ↔ UxOut_Address ux = a
             ∧ ∃ k uxa, self !! k = Some uxa ∧ ux ∈ uxa)
  ∧ AllForAddress_in visit a ≡ₚ AllForAddress self a.
Proof.
  intros Hp. unfold AllForAddress. rewrite !AllForAddress_in_eq.
  split; [done|]. split.
  - intros ux. rewrite list_elem_of_filter, list_elem_of_bind.
    split.
    + intros [Ha ([k uxa] & Hux & Hin)]. split; [done|].
      rewrite Hp in Hin. apply elem_of_map_to_list in Hin. by exists k, uxa.
    + intros [Ha (k & uxa & Hk & Hux)]. split; [done|].
      exists (k, uxa). split; [done|]. rewrite Hp.
      by apply elem_of_map_to_list.
  - by rewrite Hp.
Qed.

(** *** removeTxn and removals in sequence *)

Lemma removeTxn_after bc h self :
  after (removeTxn bc h) self
  = {| Txns := delete h (Txns self); Unspent := delete h (Unspent self) |}.
Proof. done. Qed.

(** X6.  [removeTxn] deletes the hash from both maps and nothing else,
    and is without effect when the hash is in neither; [removeTxns]
    leaves the pool that a series of [removeTxn], one for each hash in
    turn, leaves. *)
Theorem removeTxn_spec bc h self :
  let self' := after (removeTxn bc h) self in
  (Txns self' !! h = None ∧ Unspent self' !! h = None)
  ∧ (∀ k, k ≠ h → Txns self' !! k = Txns self !! k
                  ∧ Unspent self' !! k = Unspent self !! k)
  ∧ (Txns self !! h = None → Unspent self !! h = None → self' = self)
  ∧ (∀ hashes : list SHA256,
        after (removeTxns bc hashes) self
        = foldl (λ pool k, after (removeTxn bc k) pool) self hashes).
Proof.
  intros self'. subst self'. rewrite removeTxn_after. simpl.
  split; [by rewrite !lookup_delete_eq|].
  split; [intros k Hk; by rewrite !lookup_delete_ne|].
  split.
  - intros Ht Hu. apply pool_eq; simpl; by apply delete_id.
  - intros hashes. revert self.
    induction hashes as [|k rest IH]; intros self; [done|].
    cbn [foldl]. rewrite <- IH. done.
Qed.

Lemma removeTxns_same_hashes bc bc' (hashes hashes' : list SHA256) self :
  (∀ h, h ∈ hashes ↔ h ∈ hashes') →
  after (removeTxns bc hashes) self = after (removeTxns bc' hashes') self.
Proof.
  intros Hsame. apply pool_eq; apply map_eq; intros h.
  all: destruct (removeTxns_lookup bc hashes self h) as [Ht Hu].
  all: destruct (removeTxns_lookup bc' hashes' self h) as [Ht' Hu'].
  all: rewrite ?Ht, ?Hu, ?Ht', ?Hu'.
  all: repeat case_decide; try done; exfalso; naive_solver.
Qed.

Lemma removeTxns_app bc (hashes hashes' : list SHA256) self :
  after (removeTxns bc (hashes ++ hashes')) self
  = after (removeTxns bc hashes') (after (removeTxns bc hashes) self).
Proof.
  revert self. induction hashes as [|h rest IH]; intros self; [done|].
  change (after (removeTxns bc ((h :: rest) ++ hashes')) self)
    with (after (removeTxns bc (rest ++ hashes'))
            (after (removeTxn bc h) self)).
  by rewrite IH.
Qed.

(** X7.  The pool [RemoveTransactions] leaves depends on the set of the
    hashes of the given transactions alone: not on their order, on
    repetitions, or on the blockchain passed.  Removing two lists one
    after the other is removing their concatenation, removing the same
    list again changes nothing, and a removal never adds or alters an
    entry of either map. *)
Theorem RemoveTransactions_set bc (txns : list Transaction) self :
  let self' := after (RemoveTransactions bc txns) self in
  (∀ bc' (txns' : list Transaction),
      (∀ h, h ∈ Transaction_Hash <$> txns ↔ h ∈ Transaction_Hash <$> txns') →
      after (RemoveTransactions bc' txns') self = self')
  ∧ (∀ txns' : list Transaction,
        after (RemoveTransactions bc (txns ++ txns')) self
        = after (RemoveTransactions bc txns') self')
  ∧ after (RemoveTransactions bc txns) self' = self'
  ∧ Txns self' ⊆ Txns self
  ∧ Unspent self' ⊆ Unspent self
  ∧ (size (Txns self') ≤ size (Txns self))%nat.
Proof.
  intros self'. subst self'. unfold RemoveTransactions.
  assert (Txns (after (removeTxns bc (Transaction_Hash <$> txns)) self)
          ⊆ Txns self) as Hsub.
  { apply map_subseteq_spec. intros k e.
    destruct (removeTxns_lookup bc (Transaction_Hash <$> txns) self k)
      as [-> _]. by case_decide. }
  split; [|split; [|split; [|split; [|split]]]].
  - intros bc' txns' Hsame. apply removeTxns_same_hashes.
    intros h. by rewrite Hsame.
  - intros txns'. by rewrite fmap_app, removeTxns_app.
  - rewrite <- removeTxns_app. apply removeTxns_same_hashes.
    intros h. rewrite elem_of_app. tauto.
  - done.
  - apply map_subseteq_spec. intros k e.
    destruct (removeTxns_lookup bc (Transaction_Hash <$> txns) self k)
      as [_ ->]. by case_decide.
  - by apply map_subseteq_size.
Qed.

(** *** A successful RecordTxn *)

(** X8.  When [RecordTxn] returns a nil error, the transaction has
    passed the policy check and the validation of the ledger; the flag
    returned tells whether its hash was in the table; the entry under the
    hash has [Received] and [Checked] at [now]; a known entry keeps its
    transaction and its [Announced] and the index of predicted unspents
    is not changed, a new entry holds the transaction with the zero time
    as [Announced] and its predicted unspents are those
    [coin.CreateUnspents] makes from the head of the blockchain; the
    entries under other hashes are kept, and the table grows by one entry
    exactly when the hash was new. *)
Theorem RecordTxn_success bc t addrs maxSize burnFactor now self
    (existed : bool) self' :
  RecordTxn bc t addrs maxSize burnFactor now self = (None, existed, self') →
  VerifyTransaction bc t maxSize burnFactor = None
  ∧ Blockchain_VerifyTransaction bc t = None
  ∧ (existed = true ↔ is_Some (Txns self !! Transaction_Hash t))
  ∧ (∃ e', Txns self' !! Transaction_Hash t = Some e'
           ∧ Received e' = now ∧ Checked e' = now
           ∧ match Txns self !! Transaction_Hash t with
             | Some e =>
                 Txn e' = Txn e ∧ Announced e' = Announced e
                 ∧ Unspent self' = Unspent self
             | None =>
                 Txn e' = t ∧ Announced e' = ZeroTime
                 ∧ Unspent self'
                   = <[Transaction_Hash t :=
                         CreateUnspents (Blockchain_Head bc) t]> (Unspent self)
             end)
  ∧ (∀ k, k ≠ Transaction_Hash t →
          Txns self' !! k = Txns self !! k
          ∧ Unspent self' !! k = Unspent self !! k)
  ∧ size (Txns self')
    = (if existed then size (Txns self) else S (size (Txns self))).
Proof.
  intros Hrun.
  destruct (VerifyTransaction bc t maxSize burnFactor) as [e|] eqn:Hp.
  { by rewrite (RecordTxn_policy_failure _ _ _ _ _ _ _ _ Hp) in Hrun. }
  destruct (Blockchain_VerifyTransaction bc t) as [e|] eqn:Hl.
  { by rewrite (RecordTxn_ledger_failure _ _ _ _ _ _ _ _ Hp Hl) in Hrun. }
  split; [done|]. split; [done|].
  destruct (Txns self !! Transaction_Hash t) as [ut|] eqn:Hut.
  - rewrite (RecordTxn_known _ _ _ _ _ _ _ _ Hp Hl Hut) in Hrun.
    simplify_eq. simpl. split; [by split; eauto|]. split; [|split].
    + eexists. rewrite lookup_insert_eq. by repeat split.
    + intros k Hk. by rewrite lookup_insert_ne.
    + by apply map_size_insert_Some.
  - rewrite (RecordTxn_new _ _ _ _ _ _ _ Hp Hl Hut) in Hrun.
    simplify_eq. simpl. split; [|split; [|split]].
    + split; [done|]. by intros [? ?].
    + eexists. rewrite lookup_insert_eq. by repeat split.
    + intros k Hk. by rewrite !lookup_insert_ne.
    + by apply map_size_insert_None.
Qed.

(** *** Relaxing the policy *)

(** X9.  A transaction that passes the policy check still passes it
    under a larger [maxSize], and under a [burnFactor] that is zero or,
    when the one it passed under is not zero, larger; with [burnFactor]
    zero the fee is not compared at all, and the check passes exactly
    when the size fits and the ledger computes a fee without error. *)
Theorem VerifyTransaction_relax bc t (maxSize maxSize' : Z)
    (burnFactor burnFactor' : N) :
  (VerifyTransaction bc t maxSize burnFactor = None →
   maxSize ≤ maxSize' →
   burnFactor' = 0%N ∨ (burnFactor ≠ 0%N ∧ (burnFactor ≤ burnFactor')%N) →
   VerifyTransaction bc t maxSize' burnFactor' = None)
  ∧ (VerifyTransaction bc t maxSize 0 = None
     ↔ Transaction_Size t ≤ maxSize
       ∧ (Blockchain_TransactionFee bc t).2 = None).
Proof.
  unfold VerifyTransaction.
  destruct (Blockchain_TransactionFee bc t) as [fee [e|]]; simpl.
  - split.
    + destruct (Z.ltb_spec maxSize (Transaction_Size t)); done.
    + destruct (Z.ltb_spec maxSize (Transaction_Size t)); naive_solver.
  - split.
    + destruct (Z.ltb_spec maxSize (Transaction_Size t)) as [?|Hfit];
        [done|].
      destruct (Z.ltb_spec maxSize' (Transaction_Size t)); [lia|].
      intros Hpass _ [->|[Hnz Hle]]; [done|].
      destruct (N.eqb_spec burnFactor 0) as [?|_]; [done|]. simpl in Hpass.
      destruct (N.ltb_spec fee (Transaction_OutputHours t / burnFactor))
        as [?|Hfee]; [done|].
      destruct (N.eqb_spec burnFactor' 0) as [?|_]; [done|]. simpl.
      destruct (N.ltb_spec fee (Transaction_OutputHours t / burnFactor'))
        as [Hlow|?]; [|done].
      pose proof (N.div_le_compat_l (Transaction_OutputHours t)
                    burnFactor burnFactor') as Hdiv.
      lia.
    + destruct (Z.ltb_spec maxSize (Transaction_Size t)); split;
        try done; intros [? ?]; try done; lia.
Qed.

(** *** Refresh, again *)

Lemma Refresh_lookups bc checkPeriod maxAge now self k :
  Txns (after (Refresh bc checkPeriod maxAge now) self) !! k
  = Txns self !! k ≫= Refresh_outcome bc checkPeriod maxAge now
  ∧ Unspent (after (Refresh bc checkPeriod maxAge now) self) !! k
    = match Txns self !! k with
      | Some e =>
          match Refresh_outcome bc checkPeriod maxAge now e with
          | Some _ => Unspent self !! k
          | None => None
          end
      | None => Unspent self !! k
      end.
Proof.
  rewrite <- (Refresh_in_order _ _ _ _ (map_to_list (Txns self)).*1)
    by done.
  by apply Refresh_in_lookup.
Qed.

(** An entry [Refresh] has kept is kept as it is by a second [Refresh]
    at the same reading of the clock. *)
Lemma Refresh_outcome_settled bc checkPeriod maxAge now (e e' : UnconfirmedTxn) :
  Refresh_outcome bc checkPeriod maxAge now e = Some e' →
  Refresh_outcome bc checkPeriod maxAge now e' = Some e'.
Proof.
  unfold Refresh_outcome.
  destruct (maxAge <=? Time_Sub now (Received e)) eqn:Hage; [done|].
  destruct (checkPeriod <=? Time_Sub now (Checked e)) eqn:Hdue.
  - destruct (Blockchain_VerifyTransaction bc (Txn e)) eqn:Hv; [done|].
    intros [= <-]. simpl. rewrite Hage, Hv.
    by destruct (checkPeriod <=? Time_Sub now now).
  - intros [= <-]. by rewrite Hage, Hdue.
Qed.

(** X10.  A second [Refresh] with the same ledger, periods and reading
    of the clock changes nothing: what the first one kept has just been
    checked or was not due, and is kept as it is. *)
Theorem Refresh_idempotent bc (checkPeriod maxAge : Duration) now self :
  after (Refresh bc checkPeriod maxAge now)
    (after (Refresh bc checkPeriod maxAge now) self)
  = after (Refresh bc checkPeriod maxAge now) self.
Proof.
  set (self1 := after (Refresh bc checkPeriod maxAge now) self).
  apply pool_eq; apply map_eq; intros k.
  all: destruct (Refresh_lookups bc checkPeriod maxAge now self1 k)
    as [Ht1 Hu1]; rewrite ?Ht1, ?Hu1; clear Ht1 Hu1.
  all: destruct (Txns self1 !! k) as [e'|] eqn:He'; simpl; [|done].
  all: assert (Refresh_outcome bc checkPeriod maxAge now e' = Some e')
    as ->; [|done].
  all: subst self1;
    destruct (Refresh_lookups bc checkPeriod maxAge now self k) as [Ht _];
    rewrite Ht in He'.
  all: destruct (Txns self !! k) as [e|]; simplify_eq/=.
  all: by eapply Refresh_outcome_settled.
Qed.

(** X11.  [Refresh] adds nothing and rewrites nothing but [Checked]: an
    entry it leaves was there before with the same transaction,
    [Received] and [Announced], and its [Checked] is the old one or, for
    a transaction the ledger has just validated, [now]; what is left of
    the index of predicted unspents is part of what was there.  This
    holds in whatever order the table is visited. *)
Theorem Refresh_only_removes bc (checkPeriod maxAge : Duration) now
    (visit : list SHA256) self :
  visit ≡ₚ (map_to_list (Txns self)).*1 →
  let self' := after (Refresh_in visit bc checkPeriod maxAge now) self in
  (∀ k e', Txns self' !! k = Some e' →
     ∃ e, Txns self !! k = Some e
          ∧ Txn e' = Txn e ∧ Received e' = Received e
          ∧ Announced e' = Announced e
          ∧ (Checked e' = Checked e
             ∨ (Checked e' = now
                ∧ Blockchain_VerifyTransaction bc (Txn e) = None)))
  ∧ Unspent self' ⊆ Unspent self
  ∧ dom (Txns self') ⊆ dom (Txns self)
  ∧ (size (Txns self') ≤ size (Txns self))%nat.
Proof.
  intros Hp self'.
  pose proof (λ k, Refresh_in_lookup bc checkPeriod maxAge now visit self k Hp)
    as Hlook. simpl in Hlook. fold self' in Hlook.
  assert (∀ k e', Txns self' !! k = Some e' →
            ∃ e, Txns self !! k = Some e
                 ∧ Txn e' = Txn e ∧ Received e' = Received e
                 ∧ Announced e' = Announced e
                 ∧ (Checked e' = Checked e
                    ∨ (Checked e' = now
                       ∧ Blockchain_VerifyTransaction bc (Txn e) = None)))
    as Hkept.
  { intros k e'. destruct (Hlook k) as [-> _].
    destruct (Txns self !! k) as [e|]; [simpl|done].
    unfold Refresh_outcome.
    destruct (maxAge <=? Time_Sub now (Received e)); [done|].
    destruct (checkPeriod <=? Time_Sub now (Checked e)).
    - destruct (Blockchain_VerifyTransaction bc (Txn e)) eqn:Hv; [done|].
      intros [= <-]. exists e. simpl. repeat split; try done. by right.
    - intros [= <-]. exists e. repeat split; try done. by left. }
  assert (dom (Txns self') ⊆ dom (Txns self)) as Hdom.
  { intros k [e' He']%elem_of_dom.
    destruct (Hkept k e' He') as (e & He & _). by apply elem_of_dom_2 in He. }
  split; [done|]. split; [|split; [done|]].
  - apply map_subseteq_spec. intros k uxa. destruct (Hlook k) as [_ ->].
    destruct (Txns self !! k) as [e|]; [|done].
    by destruct (Refresh_outcome bc checkPeriod maxAge now e).
  - rewrite <- !size_dom. by apply subseteq_size.
Qed.

(** X12.  When no entry has reached [maxAge] and none is due for a
    check, [Refresh] leaves the pool as it is. *)
Theorem Refresh_nothing_due bc (checkPeriod maxAge : Duration) now self :
  (∀ k e, Txns self !! k = Some e →
          Time_Sub now (Received e) < maxAge
          ∧ Time_Sub now (Checked e) < checkPeriod) →
  after (Refresh bc checkPeriod maxAge now) self = self.
Proof.
  intros Hfresh. apply pool_eq; apply map_eq; intros k.
  all: destruct (Refresh_lookups bc checkPeriod maxAge now self k)
    as [Ht Hu]; rewrite ?Ht, ?Hu; clear Ht Hu.
  all: destruct (Txns self !! k) as [e|] eqn:He; simpl; [|done].
  all: destruct (Hfresh k e He) as [Hage Hdue].
  all: unfold Refresh_outcome.
  all: by rewrite !(proj2 (Z.leb_gt _ _)) by done.
Qed.

(** *** Where the entries of a pool come from *)

(** After one operation, an entry of the table either was there before,
    with the same transaction and the same predicted unspents, or has
    just been made by [RecordTxn] for a transaction that passed both
    validations. *)
Lemma exec_entry now (op : Op) self k e' :
  Txns (after (exec now op) self) !! k = Some e' →
  (∃ e, Txns self !! k = Some e ∧ Txn e' = Txn e
        ∧ Unspent (after (exec now op) self) !! k = Unspent self !! k)
  ∨ (∃ bc addrs maxSize burnFactor,
        op = OpRecordTxn bc (Txn e') addrs maxSize burnFactor
        ∧ k = Transaction_Hash (Txn e')
        ∧ VerifyTransaction bc (Txn e') maxSize burnFactor = None
        ∧ Blockchain_VerifyTransaction bc (Txn e') = None
        ∧ Unspent (after (exec now op) self) !! k
          = Some (CreateUnspents (Blockchain_Head bc) (Txn e'))).
Proof.
  destruct (queries_after self) as (Hq1 & Hq2 & Hq3 & Hq4 & Hq5).
  destruct op; simpl; rewrite ?after_then_ret, ?Hq1, ?Hq2, ?Hq3, ?Hq4, ?Hq5.
  all: try (intros He'; left; by exists e').
  - unfold after.
    destruct (VerifyTransaction bc t maxSize burnFactor) as [e|] eqn:Hp.
    { rewrite (RecordTxn_policy_failure _ _ _ _ _ _ _ _ Hp). simpl.
      intros He'; left; by exists e'. }
    destruct (Blockchain_VerifyTransaction bc t) as [e|] eqn:Hl.
    { rewrite (RecordTxn_ledger_failure _ _ _ _ _ _ _ _ Hp Hl). simpl.
      intros He'; left; by exists e'. }
    destruct (Txns self !! Transaction_Hash t) as [ut|] eqn:Hut.
    + rewrite (RecordTxn_known _ _ _ _ _ _ _ _ Hp Hl Hut). simpl.
      destruct (decide (k = Transaction_Hash t)) as [->|Hne].
      * rewrite lookup_insert_eq. intros [= <-]. left. by exists ut.
      * rewrite lookup_insert_ne by done. intros He'; left; by exists e'.
    + rewrite (RecordTxn_new _ _ _ _ _ _ _ Hp Hl Hut). simpl.
      destruct (decide (k = Transaction_Hash t)) as [->|Hne].
      * rewrite !lookup_insert_eq. intros [= <-]. right. simpl.
        by exists bc, addrs, maxSize, burnFactor.
      * rewrite !lookup_insert_ne by done. intros He'; left; by exists e'.
  - rewrite SetAnnounced_after.
    destruct (Txns self !! h) as [tx|] eqn:Htx; simpl.
    + destruct (decide (k = h)) as [->|Hne].
      * rewrite lookup_insert_eq. intros [= <-]. left. by exists tx.
      * rewrite lookup_insert_ne by done. intros He'; left; by exists e'.
    + intros He'; left; by exists e'.
  - unfold RemoveTransactions.
    destruct (removeTxns_lookup bc (Transaction_Hash <$> txns) self k)
      as [-> ->].
    case_decide; [done|]. intros He'; left; by exists e'.
  - destruct (Refresh_lookups bc checkPeriod maxAge now self k) as [-> ->].
    destruct (Txns self !! k) as [e|] eqn:He; [simpl|done].
    intros Ho. rewrite Ho. left. exists e. split; [done|]. split; [|done].
    revert Ho. unfold Refresh_outcome. repeat case_match; try done.
    all: by intros [= <-].
Qed.

(** The invariant of the histories: under its hash, accepted by an
    operation of the past, with the predicted unspents made then. *)
Lemma run_entries (history past : list (Time * Op)) self :
  (∀ k e, Txns self !! k = Some e →
     Hash e = k
     ∧ ∃ now bc addrs maxSize burnFactor,
         (now, OpRecordTxn bc (Txn e) addrs maxSize burnFactor) ∈ past
         ∧ VerifyTransaction bc (Txn e) maxSize burnFactor = None
         ∧ Blockchain_VerifyTransaction bc (Txn e) = None
         ∧ Unspent self !! k
           = Some (CreateUnspents (Blockchain_Head bc) (Txn e))) →
  ∀ k e, Txns (run history self) !! k = Some e →
     Hash e = k
     ∧ ∃ now bc addrs maxSize burnFactor,
         (now, OpRecordTxn bc (Txn e) addrs maxSize burnFactor)
         ∈ past ++ history
         ∧ VerifyTransaction bc (Txn e) maxSize burnFactor = None
         ∧ Blockchain_VerifyTransaction bc (Txn e) = None
         ∧ Unspent (run history self) !! k
           = Some (CreateUnspents (Blockchain_Head bc) (Txn e)).
Proof.
  revert past self.
  induction history as [|[now op] rest IH]; intros past self Hinv; simpl.
  { intros k e He. rewrite app_nil_r. by apply Hinv. }
  intros k e He. rewrite (cons_middle (now, op) past), app_assoc.
  revert k e He. apply IH. clear IH. intros k e' He'.
  destruct (exec_entry now op self k e' He')
    as [(e & He & Hbody & Hux)
       |(bc & addrs & maxSize & burnFactor & -> & -> & Hp & Hl & Hux)].
  - destruct (Hinv k e He)
      as (Hk & now0 & bc & addrs & maxSize & burnFactor & Hin & Hp & Hl & Hu).
    unfold Hash in *. rewrite Hbody. split; [done|].
    exists now0, bc, addrs, maxSize, burnFactor.
    rewrite Hux. repeat split; try done. apply elem_of_app. by left.
  - split; [done|]. exists now, bc, addrs, maxSize, burnFactor.
    repeat split; try done. apply elem_of_app. right. by left.
Qed.

(** X13.  In every pool of a history from a new pool, every entry of the
    table stands under the hash of its transaction. *)
Theorem keys_are_hashes (history : list (Time * Op)) k (e : UnconfirmedTxn) :
  Txns (run history NewUnconfirmedTxnPool) !! k = Some e →
  Hash e = k.
Proof.
  intros He.
  eapply (run_entries history [] NewUnconfirmedTxnPool); [|done].
  intros k0 e0 Hk0. simpl in Hk0. by simplify_map_eq.
Qed.

(** X14.  In every pool of a history from a new pool, every pending
    transaction has been handed to [RecordTxn] by an operation of the
    history and passed both the policy check and the validation of the
    ledger there, and the predicted unspents under its hash are those
    [coin.CreateUnspents] made from the head of that blockchain. *)
Theorem pending_were_accepted (history : list (Time * Op)) k
    (e : UnconfirmedTxn) :
  Txns (run history NewUnconfirmedTxnPool) !! k = Some e →
  ∃ now bc addrs maxSize burnFactor,
    (now, OpRecordTxn bc (Txn e) addrs maxSize burnFactor) ∈ history
    ∧ VerifyTransaction bc (Txn e) maxSize burnFactor = None
    ∧ Blockchain_VerifyTransaction bc (Txn e) = None
    ∧ Unspent (run history NewUnconfirmedTxnPool) !! k
      = Some (CreateUnspents (Blockchain_Head bc) (Txn e)).
Proof.
  intros He.
  eapply (run_entries history [] NewUnconfirmedTxnPool); [|done].
  intros k0 e0 Hk0. simpl in Hk0. by simplify_map_eq.
Qed.

(** *** Recording, then asking *)

(** X15.  Once [RecordTxn] has returned a nil error, [FilterKnown] holds
    the hash of the transaction back and returns the other hashes as
    before, and [GetKnown] answers the hash of a transaction that was
    new with that transaction. *)
Theorem RecordTxn_then_known bc t addrs maxSize burnFactor now self
    (existed : bool) self' :
  RecordTxn bc t addrs maxSize burnFactor now self = (None, existed, self') →
  (∀ txns : list SHA256,
      result (FilterKnown txns) self'
      = filter (λ h, h ≠ Transaction_Hash t) (result (FilterKnown txns) self))
  ∧ result (FilterKnown [Transaction_Hash t]) self' = []
  ∧ (existed = false →
     result (GetKnown [Transaction_Hash t]) self' = [t]).
Proof.
  intros Hrun.
  assert (is_Some (Txns self' !! Transaction_Hash t)
          ∧ (∀ k, k ≠ Transaction_Hash t → Txns self' !! k = Txns self !! k)
          ∧ (existed = false →
             Txn <$> Txns self' !! Transaction_Hash t = Some t))
    as (Hin & Hother & Hbody).
  { destruct (RecordTxn_cases bc t addrs maxSize burnFactor now self)
      as [[e He]|[(ut & Hut & He)|[Hut He]]]; rewrite He in Hrun;
      simplify_eq; simpl.
    - rewrite lookup_insert_eq. split; [eauto|]. split; [|done].
      intros k Hk. by rewrite lookup_insert_ne.
    - rewrite lookup_insert_eq. split; [eauto|]. split; [|done].
      intros k Hk. by rewrite lookup_insert_ne. }
  split; [|split].
  - intros txns. unfold result, FilterKnown.
    rewrite !FilterKnown_loop_eq. simpl. rewrite list_filter_filter.
    apply list_filter_iff. intros h.
    destruct (decide (h = Transaction_Hash t)) as [->|Hne].
    + destruct Hin as [e' He']. rewrite He'. naive_solver.
    + rewrite (Hother h Hne). naive_solver.
  - unfold result, FilterKnown. rewrite FilterKnown_loop_eq. simpl.
    rewrite filter_cons_False; [done|]. destruct Hin as [e' He'].
    by rewrite He'.
  - intros Hnew. unfold result, GetKnown. rewrite GetKnown_loop_eq. simpl.
    by rewrite (Hbody Hnew).
Qed.

(** *** The lists SpendsForAddresses returns *)

Lemma Spends_inputs_nonempty (bcUnspent : UnspentPool) (a : gmap Address byte)
    (ins : list SHA256) (auxs : gmap Address (list UxOut)) :
  (∀ x uxa, auxs !! x = Some uxa → uxa ≠ []) →
  ∀ x uxa, Spends_inputs bcUnspent a ins auxs !! x = Some uxa → uxa ≠ [].
Proof.
  revert auxs. induction ins as [|hin rest IH]; intros auxs Hne; simpl;
    [done|].
  destruct (UnspentPool_Get bcUnspent hin) as [ux|]; [|by apply IH].
  destruct (a !! UxOut_Address ux) as [b|]; [|by apply IH].
  apply IH. intros x uxa.
  destruct (decide (UxOut_Address ux = x)) as [<-|Hx].
  - rewrite lookup_insert_eq. intros [= <-].
    by destruct (index auxs (UxOut_Address ux)).
  - rewrite lookup_insert_ne by done. apply Hne.
Qed.

Lemma Spends_visit_nonempty (bcUnspent : UnspentPool) (a : gmap Address byte)
    (visit : list (SHA256 * UnconfirmedTxn))
    (auxs : gmap Address (list UxOut)) :
  (∀ x uxa, auxs !! x = Some uxa → uxa ≠ []) →
  ∀ x uxa,
    foldl (λ auxs kv,
             Spends_inputs bcUnspent a (Transaction_In (Txn kv.2)) auxs)
          auxs visit !! x = Some uxa →
    uxa ≠ [].
Proof.
  revert auxs. induction visit as [|kv rest IH]; intros auxs Hne; [done|].
  cbn [foldl]. apply IH. by apply Spends_inputs_nonempty.
Qed.

(** X16.  A list [SpendsForAddresses] returns under an address is never
    empty, the address is one of those asked for, and every output of
    the list is owned by that address. *)
Theorem SpendsForAddresses_lists (bcUnspent : UnspentPool)
    (a : gmap Address byte) (visit : list (SHA256 * UnconfirmedTxn)) self
    (x : Address) (uxa : list UxOut) :
  result (SpendsForAddresses_in visit bcUnspent a) self !! x = Some uxa →
  uxa ≠ [] ∧ is_Some (a !! x) ∧ Forall (λ ux, UxOut_Address ux = x) uxa.
Proof.
  unfold result, SpendsForAddresses_in. simpl. intros Hx.
  assert (is_Some (a !! x)) as Ha.
  { destruct (a !! x) eqn:Hax; [eauto|].
    rewrite Spends_visit_absent in Hx; done. }
  split; [|split; [done|]].
  - eapply (Spends_visit_nonempty bcUnspent a visit ∅); [|done].
    intros x0 uxa0 H0. by rewrite lookup_empty in H0.
  - pose proof (Spends_visit_index bcUnspent a visit ∅ x) as Hidx.
    unfold index in Hidx at 1. rewrite Hx in Hidx. simpl in Hidx.
    rewrite Hidx, decide_True by done. unfold index.
    rewrite lookup_empty. simpl. apply Forall_forall.
    by intros ux [? _]%list_elem_of_filter.
Qed.

(** *** The predicted unspents of an address *)

Lemma elem_of_AllForAddress (unspents : gmap SHA256 (list UxOut))
    (a : Address) (ux : UxOut) :
  ux ∈ AllForAddress unspents a
  ↔ UxOut_Address ux = a ∧ ∃ k uxa, unspents !! k = Some uxa ∧ ux ∈ uxa.
Proof.
  unfold AllForAddress. rewrite AllForAddress_in_eq.
  rewrite list_elem_of_filter, list_elem_of_bind. split.
  - intros [Ha ([k uxa] & Hux & Hin)]. split; [done|].
    apply elem_of_map_to_list in Hin. by exists k, uxa.
  - intros [Ha (k & uxa & Hk & Hux)]. split; [done|].
    exists (k, uxa). split; [done|]. by apply elem_of_map_to_list.
Qed.

(** X17.  Recording a new transaction adds to the predicted unspents of
    an address the outputs [coin.CreateUnspents] makes for it that the
    address owns; recording a known transaction again changes none;
    [RemoveTransactions] takes away the predicted unspents of the
    transactions removed and no others. *)
Theorem AllForAddress_tracks bc t addrs maxSize burnFactor now self self'
    (a : Address) (ux : UxOut) :
  (RecordTxn bc t addrs maxSize burnFactor now self = (None, false, self') →
   (ux ∈ AllForAddress (Unspent self') a
    ↔ UxOut_Address ux = a
      ∧ (ux ∈ CreateUnspents (Blockchain_Head bc) t
         ∨ ∃ k uxa, k ≠ Transaction_Hash t
                    ∧ Unspent self !! k = Some uxa ∧ ux ∈ uxa)))
  ∧ (RecordTxn bc t addrs maxSize burnFactor now self = (None, true, self') →
     AllForAddress (Unspent self') a = AllForAddress (Unspent self) a)
  ∧ (∀ bc' (txns : list Transaction),
        ux ∈ AllForAddress
               (Unspent (after (RemoveTransactions bc' txns) self)) a
        ↔ UxOut_Address ux = a
          ∧ ∃ k uxa, k ∉ Transaction_Hash <$> txns
                     ∧ Unspent self !! k = Some uxa ∧ ux ∈ uxa).
Proof.
  split; [|split].
  - intros Hrun.
    destruct (RecordTxn_cases bc t addrs maxSize burnFactor now self)
      as [[e He]|[(ut & Hut & He)|[Hut He]]]; rewrite He in Hrun;
      simplify_eq.
    rewrite elem_of_AllForAddress. simpl. split.
    + intros [Ha (k & uxa & Hk & Hux)]. split; [done|].
      destruct (decide (k = Transaction_Hash t)) as [->|Hne].
      * rewrite lookup_insert_eq in Hk. simplify_eq. by left.
      * rewrite lookup_insert_ne in Hk by done. right. by exists k, uxa.
    + intros [Ha [Hux|(k & uxa & Hne & Hk & Hux)]]; (split; [done|]).
      * eexists _, _. by rewrite lookup_insert_eq.
      * exists k, uxa. by rewrite lookup_insert_ne.
  - intros Hrun.
    destruct (RecordTxn_cases bc t addrs maxSize burnFactor now self)
      as [[e He]|[(ut & Hut & He)|[Hut He]]]; rewrite He in Hrun;
      by simplify_eq.
  - intros bc' txns. rewrite elem_of_AllForAddress.
    unfold RemoveTransactions. split.
    + intros [Ha (k & uxa & Hk & Hux)]. split; [done|]. exists k, uxa.
      destruct (removeTxns_lookup bc' (Transaction_Hash <$> txns) self k)
        as [_ Hu]. rewrite Hu in Hk. by case_decide.
    + intros [Ha (k & uxa & Hout & Hk & Hux)]. split; [done|]. exists k, uxa.
      destruct (removeTxns_lookup bc' (Transaction_Hash <$> txns) self k)
        as [_ ->]. by rewrite decide_False.
Qed.

(** *** What an announcement does not show in *)

Lemma map_to_list_insert_known (m : gmap SHA256 UnconfirmedTxn) h
    (tx tx' : UnconfirmedTxn) :
  m !! h = Some tx →
  ∃ rest, map_to_list m ≡ₚ (h, tx) :: rest
          ∧ map_to_list (<[h := tx']> m) ≡ₚ (h, tx') :: rest.
Proof.
  intros Hh. exists (map_to_list (delete h m)). split.
  - symmetry. by apply map_to_list_delete.
  - rewrite <- insert_delete_eq. apply map_to_list_insert.
    by rewrite lookup_delete_eq.
Qed.

(** X18.  [SetAnnounced] does not show in what the queries return:
    [FilterKnown], [GetKnown] and the predicted unspents of an address
    are as before, [RawTxns] and the lists of [SpendsForAddresses] are
    as before up to the order of the visit of the table. *)
Theorem SetAnnounced_queries h (ta : Time) self :
  let self' := after (SetAnnounced h ta) self in
  (∀ txns, result (FilterKnown txns) self' = result (FilterKnown txns) self)
  ∧ (∀ txns, result (GetKnown txns) self' = result (GetKnown txns) self)
  ∧ (∀ a, AllForAddress (Unspent self') a = AllForAddress (Unspent self) a)
  ∧ result RawTxns self' ≡ₚ result RawTxns self
  ∧ (∀ bcUnspent (a : gmap Address byte) x,
        index (result (SpendsForAddresses bcUnspent a) self') x
        ≡ₚ index (result (SpendsForAddresses bcUnspent a) self) x).
Proof.
  intros self'. subst self'. rewrite SetAnnounced_after.
  destruct (Txns self !! h) as [tx|] eqn:Htx; [|done].
  destruct (map_to_list_insert_known (Txns self) h tx (set_Announced ta tx)
              Htx) as (rest & Hold & Hnew).
  split; [|split; [|split; [|split]]].
  - intros txns. unfold result, FilterKnown. rewrite !FilterKnown_loop_eq.
    simpl. apply list_filter_iff. intros k.
    destruct (decide (k = h)) as [->|Hne].
    + rewrite lookup_insert_eq, Htx. naive_solver.
    + by rewrite lookup_insert_ne.
  - intros txns. unfold result, GetKnown. rewrite !GetKnown_loop_eq. simpl.
    induction txns as [|k txns IH]; [done|]. unfold omap in *. simpl.
    rewrite IH. destruct (decide (k = h)) as [->|Hne].
    + by rewrite lookup_insert_eq, Htx.
    + by rewrite lookup_insert_ne.
  - done.
  - unfold result, RawTxns, RawTxns_in. pool_unfold. simpl.
    by rewrite Hold, Hnew.
  - intros bcUnspent a x.
    unfold result, SpendsForAddresses, SpendsForAddresses_in. pool_unfold.
    simpl. rewrite !Spends_visit_index. case_decide; [|done].
    unfold pending_spends. by rewrite Hold, Hnew.
Qed.

(** *** Expiry *)

(** X19.  When every entry has reached [maxAge], [Refresh] empties the
    table, whatever the ledger makes of the transactions; on a pool
    whose two maps have the same keys it leaves a new pool. *)
Theorem Refresh_expires_all bc (checkPeriod maxAge : Duration) now self :
  (∀ k e, Txns self !! k = Some e → maxAge ≤ Time_Sub now (Received e)) →
  Txns (after (Refresh bc checkPeriod maxAge now) self) = ∅
  ∧ (dom (Txns self) = dom (Unspent self) →
     after (Refresh bc checkPeriod maxAge now) self = NewUnconfirmedTxnPool).
Proof.
  intros Hold.
  assert (∀ k e, Txns self !! k = Some e →
            Refresh_outcome bc checkPeriod maxAge now e = None) as Hout.
  { intros k e He. unfold Refresh_outcome.
    by rewrite (proj2 (Z.leb_le _ _)) by eauto. }
  assert (Txns (after (Refresh bc checkPeriod maxAge now) self) = ∅) as Ht.
  { apply map_eq. intros k.
    destruct (Refresh_lookups bc checkPeriod maxAge now self k) as [-> _].
    rewrite lookup_empty.
    destruct (Txns self !! k) as [e|] eqn:He; [simpl|done]. eauto. }
  split; [done|]. intros Hc. apply pool_eq; [done|]. simpl.
  apply map_eq. intros k.
  destruct (Refresh_lookups bc checkPeriod maxAge now self k) as [_ ->].
  rewrite lookup_empty.
  destruct (Txns self !! k) as [e|] eqn:He.
  - by rewrite (Hout k e He).
  - apply not_elem_of_dom. rewrite <- Hc. by apply not_elem_of_dom.
Qed.

End Properties.

(** * The properties on the small ledger *)

Section Instances.
Import Sample.

Local Open Scope string_scope.

(** [t1] and [t2] pass both validations on [bc0]; [t3] is rejected by
    the ledger. *)
Lemma Sample_validations :
  VerifyTransaction bc0 t1 1000 2 = None
  ∧ Blockchain_VerifyTransaction bc0 t1 = None
  ∧ VerifyTransaction bc0 t3 1000 2 = None
  ∧ Blockchain_VerifyTransaction bc0 t3 = Some "rejected".
Proof. repeat split. Qed.

Lemma pool_keys_agree_witness :
  Forall (λ self, dom (Txns self) = dom (Unspent self))
    (trace [(1000, OpRecordTxn bc0 t1 ∅ 1000 2);
            (2000, OpRecordTxn bc0 t2 ∅ 1000 2);
            (2500, OpSetAnnounced 10%N 2400);
            (5000, OpRefresh bc0 1000 3500);
            (6000, OpRemoveTransactions bc0 [t2])]
       NewUnconfirmedTxnPool).
Proof. apply pool_keys_agree. Defined.

Lemma RecordTxn_failure_inert_witness :
  RecordTxn bc0 t3 ∅ 1000 2 3000 pool12
  = (Some (ledger_error "rejected"), false, pool12).
Proof.
  apply (proj1 (proj2 (RecordTxn_failure_inert bc0 t3 ∅ 1000 2 3000 pool12)));
    reflexivity.
Defined.

(** C3 as it is stated fails on [pool12], which holds [t1]: [t1] passes
    both validations, yet the first of two calls in succession returns
    that the transaction existed; and when the clock reads 3000 at the
    first call and 2500 at the second, the [Checked] of the entry after
    the second call is less than after the first. *)
Lemma RecordTxn_twice_counterexample :
  let first := RecordTxn bc0 t1 ∅ 1000 2 3000 in
  let second := RecordTxn bc0 t1 ∅ 1000 2 2500 in
  let self1 := after first pool12 in
  let self2 := after second self1 in
  VerifyTransaction bc0 t1 1000 2 = None
  ∧ Blockchain_VerifyTransaction bc0 t1 = None
  ∧ result first pool12 = (None, true)
  ∧ result first pool12 ≠ (None, false)
  ∧ Checked <$> Txns self1 !! 10%N = Some 3000
  ∧ Checked <$> Txns self2 !! 10%N = Some 2500.
Proof. repeat split. discriminate. Qed.

Lemma RecordTxn_twice_witness :
  result (RecordTxn bc0 t1 ∅ 1000 2 1000) NewUnconfirmedTxnPool
  = (None, false)
  ∧ result (RecordTxn bc0 t1 ∅ 1000 2 2000)
      (after (RecordTxn bc0 t1 ∅ 1000 2 1000) NewUnconfirmedTxnPool)
    = (None, true).
Proof.
  pose proof (RecordTxn_twice bc0 t1 ∅ ∅ 1000 2 1000 2000
                NewUnconfirmedTxnPool) as Htwice.
  destruct Htwice as (Hfirst & Hsecond & _);
    [reflexivity|reflexivity|reflexivity|lia|].
  split; [exact Hfirst|exact Hsecond].
Defined.

(** A transaction of exactly [maxSize] bytes passes, one byte more is too
    large; with [outputHours / burnFactor] equal to the fee the fee is
    enough, one hour unit more is too much. *)
Lemma VerifyTransaction_spec_witness :
  VerifyTransaction bc0 t_large 1000 2
  = Some (errors_New "Transaction too large")
  ∧ VerifyTransaction bc0 t_limit 1000 2 = None
  ∧ VerifyTransaction bc0 t_cheap 1000 2
    = Some (errors_New "Transaction fee minimum not met").
Proof.
  split; [|split].
  - apply (proj1 (VerifyTransaction_spec bc0 t_large 1000 2)).
    simpl. lia.
  - apply (proj2 (proj2 (proj2 (VerifyTransaction_spec bc0 t_limit 1000 2))));
      simpl; [lia|reflexivity|].
    intros [_ Hlow]. vm_compute in Hlow. discriminate.
  - apply (proj1 (proj2 (proj2 (VerifyTransaction_spec bc0 t_cheap 1000 2))));
      simpl; [lia|reflexivity|].
    split; [discriminate|reflexivity].
Defined.

(** [Refresh] at time 5000 with [maxAge = 3500] and [checkPeriod = 1000]
    on [pool12], visited with [t2] first: [t1], received at 1000, has
    expired; [t2], received and checked at 2000, is checked again. *)
Lemma Refresh_spec_witness :
  let self' := after (Refresh_in [20%N; 10%N] bc0 1000 3500 5000) pool12 in
  (Txns self' !! 10%N = None ∧ Unspent self' !! 10%N = None)
  ∧ Txns self' !! 20%N
    = Some {| Txn := t2; Received := 2000; Checked := 5000;
              Announced := ZeroTime |}.
Proof.
  assert ([20%N; 10%N] ≡ₚ (map_to_list (Txns pool12)).*1) as Hvisit.
  { vm_compute. apply perm_swap. }
  destruct (Refresh_spec bc0 1000 3500 5000 [20%N; 10%N] pool12 Hvisit)
    as (Hentries & _).
  split.
  - destruct (Hentries 10%N {| Txn := t1; Received := 1000; Checked := 1000;
                               Announced := ZeroTime |} eq_refl)
      as (Hexpired & _).
    apply Hexpired. vm_compute. discriminate.
  - destruct (Hentries 20%N {| Txn := t2; Received := 2000; Checked := 2000;
                               Announced := ZeroTime |} eq_refl)
      as (_ & Hdue & _).
    apply Hdue; [vm_compute; reflexivity|vm_compute; discriminate|reflexivity].
Defined.

Lemma RemoveTransactions_spec_witness :
  Txns (after (RemoveTransactions bc0 [t1]) pool12) !! 10%N = None
  ∧ Unspent (after (RemoveTransactions bc0 [t1]) pool12) !! 10%N = None.
Proof.
  apply (proj1 (RemoveTransactions_spec bc0 [t1] pool12) 10%N).
  simpl. apply list_elem_of_here.
Defined.

(** The spends of the addresses 1 and 2 in [pool12]: [t1] spends the
    outputs 100 (of address 1) and 101 (of address 2), [t2] spends the
    output 102 (of address 1) and an input the ledger does not know. *)
Lemma SpendsForAddresses_spec_witness :
  index (result (SpendsForAddresses_in
                   [(10%N, {| Txn := t1; Received := 1000; Checked := 1000;
                              Announced := ZeroTime |});
                    (20%N, {| Txn := t2; Received := 2000; Checked := 2000;
                              Announced := ZeroTime |})]
                   (Blockchain_Unspent bc0) {[ 1%N := x01 ]}) pool12) 1%N
  = [ {| ux_id := 100; ux_owner := 1 |}; {| ux_id := 102; ux_owner := 1 |} ].
Proof.
  rewrite (proj1 (SpendsForAddresses_spec (Blockchain_Unspent bc0)
                    {[ 1%N := x01 ]} _ pool12 ltac:(vm_compute; reflexivity)))
    by (vm_compute; eauto).
  vm_compute. reflexivity.
Defined.

Lemma FilterKnown_spec_witness :
  result (FilterKnown [10%N; 99%N; 20%N; 99%N]) pool12 = [99%N; 99%N].
Proof.
  rewrite (proj1 (FilterKnown_spec [10%N; 99%N; 20%N; 99%N] pool12)).
  vm_compute. reflexivity.
Defined.

Lemma timestamps_monotone_witness :
  Received {| Txn := t1; Received := 1000; Checked := 1000;
              Announced := ZeroTime |}
  ≤ Received {| Txn := t1; Received := 1000; Checked := 5000;
                Announced := ZeroTime |}
  ∧ Checked {| Txn := t1; Received := 1000; Checked := 1000;
               Announced := ZeroTime |}
    ≤ Checked {| Txn := t1; Received := 1000; Checked := 5000;
                 Announced := ZeroTime |}.
Proof.
  apply (proj1 timestamps_monotone
           [(1000, OpRecordTxn bc0 t1 ∅ 1000 2)]
           [(5000, OpRefresh bc0 1000 9000)] 10%N); reflexivity.
Defined.

Lemma RecordTxn_addrs_irrelevant_witness :
  RecordTxn bc0 t1 {[ 1%N := x01 ]} 1000 2 3000 pool12
  = RecordTxn bc0 t1 ∅ 1000 2 3000 pool12.
Proof. apply RecordTxn_addrs_irrelevant. Defined.

Lemma SetAnnounced_spec_witness :
  Txns (after (SetAnnounced 10%N 2400) pool12) !! 10%N
  = Some {| Txn := t1; Received := 1000; Checked := 1000;
            Announced := 2400 |}.
Proof.
  apply (proj1 (SetAnnounced_spec 10%N 0 2400 pool12) e1). reflexivity.
Defined.

Lemma GetKnown_spec_witness :
  result (GetKnown [10%N; 99%N; 20%N]) pool12 = [t1; t2].
Proof.
  rewrite (proj1 (GetKnown_spec [10%N; 99%N; 20%N] pool12)).
  vm_compute. reflexivity.
Defined.

Lemma FilterKnown_GetKnown_partition_witness :
  (length (result (FilterKnown [10%N; 99%N; 20%N; 99%N]) pool12)
   + length (result (GetKnown [10%N; 99%N; 20%N; 99%N]) pool12))%nat
  = 4%nat.
Proof. apply (FilterKnown_GetKnown_partition [10%N; 99%N; 20%N; 99%N]). Defined.

Lemma RawTxns_spec_witness :
  length (result (RawTxns_in [(20%N, e2); (10%N, e1)]) pool12)
  = size (Txns pool12).
Proof.
  apply (RawTxns_spec [(20%N, e2); (10%N, e1)] pool12).
  vm_compute. apply perm_swap.
Defined.

Lemma AllForAddress_spec_witness :
  AllForAddress_in (map_to_list (Unspent pool12)) 7%N
  = [ {| ux_id := 11; ux_owner := 7 |}; {| ux_id := 21; ux_owner := 7 |} ].
Proof.
  rewrite (proj1 (AllForAddress_spec (Unspent pool12)
                    (map_to_list (Unspent pool12)) 7%N (reflexivity _))).
  vm_compute. reflexivity.
Defined.

Lemma removeTxn_spec_witness :
  Txns (after (removeTxn bc0 10%N) pool12) !! 10%N = None
  ∧ Unspent (after (removeTxn bc0 10%N) pool12) !! 10%N = None.
Proof. apply (removeTxn_spec bc0 10%N pool12). Defined.

Lemma RemoveTransactions_set_witness :
  after (RemoveTransactions bc0 [t2; t1; t2]) pool12
  = after (RemoveTransactions bc0 [t1; t2]) pool12.
Proof.
  apply (proj1 (RemoveTransactions_set bc0 [t1; t2] pool12)).
  intros h. simpl. rewrite !elem_of_cons. tauto.
Defined.

Lemma RecordTxn_success_witness :
  size (Txns (after (RecordTxn bc0 t1 ∅ 1000 2 3000) pool12))
  = size (Txns pool12).
Proof.
  pose proof (RecordTxn_success bc0 t1 ∅ 1000 2 3000 pool12 true
                (after (RecordTxn bc0 t1 ∅ 1000 2 3000) pool12)
                eq_refl) as (_ & _ & _ & _ & _ & Hsize).
  exact Hsize.
Defined.

Lemma VerifyTransaction_relax_witness :
  VerifyTransaction bc0 t_limit 2000 3 = None.
Proof.
  apply (proj1 (VerifyTransaction_relax bc0 t_limit 1000 2000 2 3));
    [reflexivity|lia|right; split; [discriminate|lia]].
Defined.

Lemma Refresh_idempotent_witness :
  after (Refresh bc0 1000 3500 5000) (after (Refresh bc0 1000 3500 5000) pool12)
  = after (Refresh bc0 1000 3500 5000) pool12.
Proof. apply Refresh_idempotent. Defined.

Lemma Refresh_only_removes_witness :
  (size (Txns (after (Refresh_in [20%N; 10%N] bc0 1000 3500 5000) pool12))
   ≤ size (Txns pool12))%nat.
Proof.
  apply (Refresh_only_removes bc0 1000 3500 5000 [20%N; 10%N] pool12).
  vm_compute. apply perm_swap.
Defined.

Lemma Refresh_nothing_due_witness :
  after (Refresh bc0 5000 3500 2100) pool12 = pool12.
Proof.
  apply Refresh_nothing_due.
  change (map_Forall (λ _ e, Time_Sub 2100 (Received e) < 3500
                             ∧ Time_Sub 2100 (Checked e) < 5000)
            (Txns pool12)).
  apply (bool_decide_unpack _). vm_compute. exact I.
Defined.

Lemma keys_are_hashes_witness : Hash e1 = 10%N.
Proof.
  apply (keys_are_hashes [(1000, OpRecordTxn bc0 t1 ∅ 1000 2);
                          (2000, OpRecordTxn bc0 t2 ∅ 1000 2)] 10%N e1).
  reflexivity.
Defined.

Lemma pending_were_accepted_witness :
  ∃ now bc addrs maxSize burnFactor,
    (now, OpRecordTxn bc (Txn e1) addrs maxSize burnFactor)
    ∈ [(1000, OpRecordTxn bc0 t1 ∅ 1000 2);
       (2000, OpRecordTxn bc0 t2 ∅ 1000 2)]
    ∧ VerifyTransaction bc (Txn e1) maxSize burnFactor = None
    ∧ Blockchain_VerifyTransaction bc (Txn e1) = None
    ∧ Unspent (run [(1000, OpRecordTxn bc0 t1 ∅ 1000 2);
                    (2000, OpRecordTxn bc0 t2 ∅ 1000 2)]
                 NewUnconfirmedTxnPool) !! 10%N
      = Some (CreateUnspents (Blockchain_Head bc) (Txn e1)).
Proof.
  apply (pending_were_accepted [(1000, OpRecordTxn bc0 t1 ∅ 1000 2);
                                (2000, OpRecordTxn bc0 t2 ∅ 1000 2)]
           10%N e1).
  reflexivity.
Defined.

Lemma RecordTxn_then_known_witness :
  result (FilterKnown [10%N])
    (after (RecordTxn bc0 t1 ∅ 1000 2 1000) NewUnconfirmedTxnPool) = [].
Proof.
  apply (proj1 (proj2 (RecordTxn_then_known bc0 t1 ∅ 1000 2 1000
                         NewUnconfirmedTxnPool false
                         (after (RecordTxn bc0 t1 ∅ 1000 2 1000)
                            NewUnconfirmedTxnPool) eq_refl))).
Defined.

Lemma SpendsForAddresses_lists_witness :
  [ {| ux_id := 100; ux_owner := 1 |}; {| ux_id := 102; ux_owner := 1 |} ]
  ≠ []
  ∧ is_Some (({[ 1%N := x01 ]} : gmap N byte) !! 1%N)
  ∧ Forall (λ ux, ux_owner ux = 1%N)
      [ {| ux_id := 100; ux_owner := 1 |}; {| ux_id := 102; ux_owner := 1 |} ].
Proof.
  apply (SpendsForAddresses_lists (Blockchain_Unspent bc0) {[ 1%N := x01 ]}
           [(10%N, e1); (20%N, e2)] pool12 1%N).
  vm_compute. reflexivity.
Defined.

Lemma AllForAddress_tracks_witness :
  {| ux_id := 11; ux_owner := 7 |}
  ∈ AllForAddress
      (Unspent (after (RecordTxn bc0 t1 ∅ 1000 2 1000) NewUnconfirmedTxnPool))
      7%N.
Proof.
  apply (proj1 (AllForAddress_tracks bc0 t1 ∅ 1000 2 1000
                  NewUnconfirmedTxnPool
                  (after (RecordTxn bc0 t1 ∅ 1000 2 1000)
                     NewUnconfirmedTxnPool)
                  7%N {| ux_id := 11; ux_owner := 7 |}) eq_refl).
  split; [reflexivity|]. left. apply list_elem_of_here.
Defined.

Lemma SetAnnounced_queries_witness :
  result (GetKnown [10%N; 20%N]) (after (SetAnnounced 10%N 2400) pool12)
  = result (GetKnown [10%N; 20%N]) pool12.
Proof.
  apply (proj1 (proj2 (SetAnnounced_queries 10%N 2400 pool12))).
Defined.

Lemma Refresh_expires_all_witness :
  after (Refresh bc0 1000 3500 9000) pool12 = NewUnconfirmedTxnPool.
Proof.
  apply Refresh_expires_all; [|vm_compute; reflexivity].
  change (map_Forall (λ _ e, 3500 ≤ Time_Sub 9000 (Received e))
            (Txns pool12)).
  apply (bool_decide_unpack _). vm_compute. exact I.
Defined.

End Instances.
